(** * Moderated sessions: policy evaluator, session tracker and live session

    A shallow embedding of
      - [lib/auth/session_access.go]   (the session access evaluator),
      - the session tracker service    (list maintenance of the tracker store),
      - the Kubernetes live session    (join / leave / launch / Close),
    followed by the properties established about them.

    Go values are modelled as follows: [string] for Go strings and for the
    string-like named types ([SessionKind], [SessionParticipantMode], role
    versions, UUIDs in their printed form); [Z] for [int32] with the
    wrap-around written out; [list] for slices; [gmap] for Go maps; a sum
    type for the [(value, error)] return convention. *)

From Stdlib Require Import ZArith String Ascii List Bool Lia Permutation.
From stdpp Require Import base option list gmap strings.

Local Open Scope string_scope.
Local Open Scope Z_scope.

(** ** Errors and the [(value, error)] convention *)

(** The error kinds of [gravitational/trace] that the code under study
    creates or lets through.  [trace.Wrap] keeps the kind of an error, so
    wrapping is the identity here. *)
Inductive error : Type :=
| NotFound (msg : string)
| BadParameter (msg : string)
| AccessDenied (msg : string)
| CompareFailed (msg : string)
| ConnectionProblem (msg : string)
| RuntimePanic (msg : string).

(** [result A] is Go's [(A, error)]: [inl err] when [err != nil]. *)
Definition result (A : Type) : Type := (error + A)%type.

Definition Ok {A : Type} (a : A) : result A := inr a.
Definition Err {A : Type} (e : error) : result A := inl e.

#[global] Instance result_ret : MRet result := fun A a => inr a.
#[global] Instance result_bind : MBind result := fun A B f m =>
  match m with
  | inl e => inl e
  | inr a => f a
  end.
#[global] Instance result_fmap : FMap result := fun A B f m =>
  match m with
  | inl e => inl e
  | inr a => inr (f a)
  end.

(** ** Data model of [api/types] used by the evaluator *)

Definition SessionKind := string.
Definition SessionParticipantMode := string.

(** Modelled from the spec: the constants of [api/types] are declared outside
    the files at hand; their values follow the specification's data model
    (session kinds [ssh] and [kubernetes], wildcard [*], on-leave actions
    [terminate] and [pause], modes [peer], [observer] and [moderator], role
    versions [v1] to [v5]). *)
Definition SSHSessionKind : SessionKind := "ssh".
Definition KubernetesSessionKind : SessionKind := "kubernetes".
Definition Wildcard : string := "*".
Definition OnSessionLeaveTerminate : string := "terminate".
Definition OnSessionLeavePause : string := "pause".
Definition SessionPeerMode : SessionParticipantMode := "peer".
Definition SessionObserverMode : SessionParticipantMode := "observer".
Definition SessionModeratorMode : SessionParticipantMode := "moderator".
Definition V1 : string := "v1".
Definition V2 : string := "v2".
Definition V3 : string := "v3".
Definition V4 : string := "v4".
Definition V5 : string := "v5".

Record SessionRequirePolicy : Type := {
  Filter : string;
  RequireKinds : list string;
  Count : Z;                    (* int32 *)
  OnLeave : string
}.

Record SessionJoinPolicy : Type := {
  JoinRoles : list string;
  JoinKinds : list string;
  Modes : list string
}.

(** [types.Role], through the four getters the evaluator calls. *)
Record Role : Type := {
  GetName : string;
  GetVersion : string;
  GetSessionRequirePolicies : list SessionRequirePolicy;
  GetSessionJoinPolicies : list SessionJoinPolicy
}.

(** ** int32 arithmetic *)

Definition min_int32 : Z := - 2 ^ 31.
Definition max_int32 : Z := 2 ^ 31 - 1.

Definition wrap32 (z : Z) : Z := (z + 2 ^ 31) mod 2 ^ 32 - 2 ^ 31.

(** [left--] on an [int32]. *)
Definition decr32 (z : Z) : Z := wrap32 (z - 1).

(** ** Glob matching *)

(** Modelled from the spec: [utils.GlobToRegexp] and the regular expression
    engine behind [regexp.MatchString] are outside the files at hand.  This
    is the matcher of section 4.B-glob: [*] matches any run of characters
    (the empty one included), [?] matches exactly one character, any other
    character matches itself, the match is anchored at both ends, and every
    pattern/name pair yields a boolean. *)
Fixpoint specGlobMatch (pattern s : string) : bool :=
  match pattern with
  | EmptyString =>
      match s with EmptyString => true | String _ _ => false end
  | String c pattern' =>
      if Ascii.eqb c "*" then
        (fix anyRun (t : string) : bool :=
           specGlobMatch pattern' t
           || match t with
              | EmptyString => false
              | String _ t' => anyRun t'
              end) s
      else
        match s with
        | EmptyString => false
        | String d s' =>
            (Ascii.eqb c "?" || Ascii.eqb c d) && specGlobMatch pattern' s'
        end
  end.


(** ** Filter expressions *)

(** What [GetIdentifier] hands to the predicate library: a string or a list
    of strings (an [interface{}] in the source). *)
Inductive value : Type :=
| VString (s : string)
| VStrings (l : list string).

(** What [parser.Parse] returns, seen through the type assertion
    [ifn.(predicate.BoolPredicate)] of [matchesPredicate]: a nullary boolean
    predicate (given by the value it returns when called) or something
    else. *)
Inductive parsed : Type :=
| BoolPredicate (fn : bool)
| NotAPredicate.

(** A where-parser is built from the identifier resolver of a context
    ([services.NewWhereParser(ctx)]) and then parses a filter. *)
Definition WhereParser : Type :=
  (list string -> result value) -> string -> result parsed.

(** Modelled from the spec: the where-parser of [lib/services] and the
    predicate library are outside the files at hand.  [specWhereParser]
    implements the fragment of section 4.A that the repository's tests use: a
    call [contains(list_expr, string_literal)] over a dotted identifier,
    optionally negated with [!].  Identifiers are resolved through the
    resolver of the context while parsing, and a result that is not boolean
    is not a predicate. *)
Inductive expr : Type :=
| EIdent (fields : list string)
| EString (s : string)
| EContains (l e : expr)
| ENot (e : expr).

Definition doubleQuote : ascii := Ascii.ascii_of_nat 34.

Fixpoint stripPrefix (pre s : string) : option string :=
  match pre, s with
  | EmptyString, _ => Some s
  | String a pre', String b s' =>
      if Ascii.eqb a b then stripPrefix pre' s' else None
  | String _ _, EmptyString => None
  end.

Fixpoint splitOn (c : ascii) (s : string) : option (string * string) :=
  match s with
  | EmptyString => None
  | String d s' =>
      if Ascii.eqb c d then Some (EmptyString, s')
      else match splitOn c s' with
           | Some (a, b) => Some (String d a, b)
           | None => None
           end
  end.

Fixpoint splitAll (c : ascii) (s : string) : list string :=
  match s with
  | EmptyString => [EmptyString]
  | String d s' =>
      if Ascii.eqb c d then EmptyString :: splitAll c s'
      else match splitAll c s' with
           | [] => [String d EmptyString]
           | w :: ws => String d w :: ws
           end
  end.

Definition parseContains (s : string) : option expr :=
  rest ← stripPrefix "contains(" s;
  '(ident, rest) ← splitOn "," rest;
  let rest := default rest (stripPrefix " " rest) in
  rest ← stripPrefix (String doubleQuote EmptyString) rest;
  '(lit, rest) ← splitOn doubleQuote rest;
  if String.eqb rest ")" then
    Some (EContains (EIdent (splitAll "." ident)) (EString lit))
  else None.

Definition parseFilter (s : string) : option expr :=
  match stripPrefix "!" s with
  | Some rest => ENot <$> parseContains rest
  | None => parseContains s
  end.

Inductive evaluated : Type :=
| Val (v : value)
| Truth (b : bool).

Fixpoint evalExpr (getIdentifier : list string -> result value) (e : expr)
  : result evaluated :=
  match e with
  | EIdent fields => Val <$> getIdentifier fields
  | EString s => Ok (Val (VString s))
  | EContains l x =>
      vl ← evalExpr getIdentifier l;
      vx ← evalExpr getIdentifier x;
      match vl, vx with
      | Val (VStrings items), Val (VString needle) =>
          Ok (Truth (existsb (String.eqb needle) items))
      | _, _ => Err (BadParameter "contains: unsupported argument types")
      end
  | ENot x =>
      vx ← evalExpr getIdentifier x;
      match vx with
      | Truth b => Ok (Truth (negb b))
      | Val _ => Err (BadParameter "!: operand is not boolean")
      end
  end.

Definition specWhereParser : WhereParser := fun getIdentifier filter =>
  match parseFilter filter with
  | None => Err (BadParameter "failed to parse filter")
  | Some e =>
      r ← evalExpr getIdentifier e;
      match r with
      | Truth b => Ok (BoolPredicate b)
      | Val _ => Ok NotAPredicate
      end
  end.

(** ** The session access evaluator ([lib/auth/session_access.go]) *)

(** [SessionAccessContext]: the context provided per participant. *)
Record SessionAccessContext : Type := {
  Username : string;
  Roles : list Role
}.

Record PolicyOptions : Type := {
  TerminateOnLeave : bool
}.

(** [PolicyOptions{}] *)
Definition noOptions : PolicyOptions := {| TerminateOnLeave := false |}.

Record SessionAccessEvaluator : Type := {
  kind : SessionKind;
  requires : list SessionRequirePolicy;
  roles : list Role
}.

(** Roles without require policies contribute nothing, the others are
    concatenated in order. *)
Fixpoint getRequirePolicies (participant : list Role) : list SessionRequirePolicy :=
  match participant with
  | [] => []
  | role :: rest =>
      let policiesFromRole := GetSessionRequirePolicies role in
      if (Z.of_nat (length policiesFromRole) =? 0)
      then getRequirePolicies rest
      else policiesFromRole ++ getRequirePolicies rest
  end.

Definition NewSessionAccessEvaluator (roles : list Role) (kind : SessionKind)
  : SessionAccessEvaluator :=
  {| kind := kind; requires := getRequirePolicies roles; roles := roles |}.

Fixpoint getAllowPoliciesOf (rs : list Role) : list SessionJoinPolicy :=
  match rs with
  | [] => []
  | role :: rest => GetSessionJoinPolicies role ++ getAllowPoliciesOf rest
  end.

Definition getAllowPolicies (participant : SessionAccessContext)
  : list SessionJoinPolicy :=
  getAllowPoliciesOf (Roles participant).

Fixpoint contains (s : list string) (e : SessionKind) : bool :=
  match s with
  | [] => false
  | a :: rest => if String.eqb a e then true else contains rest e
  end.

(** [GetIdentifier] resolves [participant.name] and [participant.roles];
    indexing [fields[0]] of an empty slice panics. *)
Definition GetIdentifier (ctx : SessionAccessContext) (fields : list string)
  : result value :=
  match fields with
  | [] => Err (RuntimePanic "index out of range [0] with length 0")
  | f0 :: _ =>
      let notDefined := Err (NotFound (String.concat "." fields ++ " is not defined")) in
      if String.eqb f0 "participant" then
        if (Z.of_nat (length fields) =? 2) || (Z.of_nat (length fields) =? 3) then
          match fields with
          | _ :: f1 :: _ =>
              if String.eqb f1 "name" then Ok (VString (Username ctx))
              else if String.eqb f1 "roles" then
                Ok (VStrings (map GetName (Roles ctx)))
              else notDefined
          | _ => notDefined
          end
        else notDefined
      else notDefined
  end.

Definition matchesKind (e : SessionAccessEvaluator) (allow : list string) : bool :=
  if contains allow (kind e) || contains allow Wildcard then true else false.

Definition SliceContainsMode (s : list SessionParticipantMode)
  (e : SessionParticipantMode) : bool :=
  existsb (fun a => String.eqb a e) s.

Definition preAccessControlsModes (kind : SessionKind)
  : list SessionParticipantMode :=
  if String.eqb kind SSHSessionKind then [SessionPeerMode] else [].

(** Every branch of the switch in the loop body returns, so the loop ends
    during its first iteration: the version of the first role decides. *)
Definition supportsSessionAccessControls (e : SessionAccessEvaluator)
  : result bool :=
  if String.eqb (kind e) SSHSessionKind then
    match roles e with
    | role :: _ =>
        let v := GetVersion role in
        if String.eqb v V1 || String.eqb v V2 || String.eqb v V3 || String.eqb v V4
        then Ok false
        else if String.eqb v V5 then Ok true
        else Err (BadParameter ("unsupported role version: " ++ v))
    | [] => Ok false
    end
  else Ok false.

(** The switch on [requirePolicy.OnLeave] once [left <= 0]. *)
Definition onLeaveOutcome (requirePolicy : SessionRequirePolicy)
  : result (bool * PolicyOptions) :=
  if String.eqb (OnLeave requirePolicy) OnSessionLeaveTerminate then
    Ok (true, {| TerminateOnLeave := true |})
  else if String.eqb (OnLeave requirePolicy) OnSessionLeavePause then
    Ok (true, {| TerminateOnLeave := false |})
  else
    Err (BadParameter ("unsupported on_leave policy: " ++ OnLeave requirePolicy)).

Section Evaluator.

(** The two collaborators outside the files at hand: the where-parser, and
    [globMatch pattern s], which stands for
    [regexp.MatchString(utils.GlobToRegexp(pattern), s)] with the error
    dropped as [matchesJoin] does. *)
Variable whereParser : WhereParser.
Variable globMatch : string -> string -> bool.

Definition matchesPredicate (e : SessionAccessEvaluator)
  (ctx : SessionAccessContext) (require : SessionRequirePolicy)
  (allow : SessionJoinPolicy) : result bool :=
  if negb (matchesKind e (RequireKinds require))
     || negb (matchesKind e (JoinKinds allow))
  then Ok false
  else
    match whereParser (GetIdentifier ctx) (Filter require) with
    | inl err => Err err
    | inr (BoolPredicate fn) => Ok fn
    | inr NotAPredicate => Err (BadParameter "unsupported type")
    end.

(** The inner loop of [matchesJoin]: the name of the host role is the glob
    and the entry of [allow.Roles] is the string matched against it. *)
Fixpoint matchesAllowRoles (requireRole : Role) (allowRoles : list string)
  : bool :=
  match allowRoles with
  | [] => false
  | allowRole :: rest =>
      if globMatch (GetName requireRole) allowRole then true
      else matchesAllowRoles requireRole rest
  end.

Fixpoint matchesRequireRoles (requireRoles : list Role)
  (allowRoles : list string) : bool :=
  match requireRoles with
  | [] => false
  | requireRole :: rest =>
      if matchesAllowRoles requireRole allowRoles then true
      else matchesRequireRoles rest allowRoles
  end.

Definition matchesJoin (e : SessionAccessEvaluator) (allow : SessionJoinPolicy)
  : bool :=
  if negb (matchesKind e (JoinKinds allow)) then false
  else matchesRequireRoles (roles e) (JoinRoles allow).

(** [CanJoin]: the modes of every matching allow policy, first seen first,
    without repetition. *)
Fixpoint addModes (modes : list SessionParticipantMode)
  (modeStrings : list string) : list SessionParticipantMode :=
  match modeStrings with
  | [] => modes
  | mode :: rest =>
      if negb (SliceContainsMode modes mode) then addModes (modes ++ [mode]) rest
      else addModes modes rest
  end.

Fixpoint collectModes (e : SessionAccessEvaluator)
  (modes : list SessionParticipantMode) (allowPolicies : list SessionJoinPolicy)
  : list SessionParticipantMode :=
  match allowPolicies with
  | [] => modes
  | allowPolicy :: rest =>
      if matchesJoin e allowPolicy
      then collectModes e (addModes modes (Modes allowPolicy)) rest
      else collectModes e modes rest
  end.

Definition CanJoin (e : SessionAccessEvaluator) (user : SessionAccessContext)
  : result (list SessionParticipantMode) :=
  supported ← supportsSessionAccessControls e;
  if negb supported then Ok (preAccessControlsModes (kind e))
  else Ok (collectModes e [] (getAllowPolicies user)).

(** The loop over the allow policies of one participant: [inr true] when
    the loop ends through [left--; break], [inr false] when it runs to the
    end, [inl err] when [matchesPredicate] fails. *)
Fixpoint countsToward (e : SessionAccessEvaluator)
  (participant : SessionAccessContext) (requirePolicy : SessionRequirePolicy)
  (allowPolicies : list SessionJoinPolicy) : result bool :=
  match allowPolicies with
  | [] => Ok false
  | allowPolicy :: rest =>
      match matchesPredicate e participant requirePolicy allowPolicy with
      | inl err => Err err
      | inr matches =>
          if matches && matchesJoin e allowPolicy then Ok true
          else countsToward e participant requirePolicy rest
      end
  end.

(** The loop over the participants for one require policy: [Some r] when
    the function returns [r] from inside the loop, [None] when the loop
    runs to its end and the next require policy is tried. *)
Fixpoint overParticipants (e : SessionAccessEvaluator)
  (requirePolicy : SessionRequirePolicy) (left : Z)
  (participants : list SessionAccessContext)
  : option (result (bool * PolicyOptions)) :=
  match participants with
  | [] => None
  | participant :: rest =>
      match countsToward e participant requirePolicy
              (getAllowPolicies participant) with
      | inl err => Some (Err err)
      | inr counted =>
          let left := if counted then decr32 left else left in
          if left <=? 0 then Some (onLeaveOutcome requirePolicy)
          else overParticipants e requirePolicy left rest
      end
  end.

Fixpoint overRequires (e : SessionAccessEvaluator)
  (requirePolicies : list SessionRequirePolicy)
  (participants : list SessionAccessContext) : result (bool * PolicyOptions) :=
  match requirePolicies with
  | [] => Ok (false, noOptions)
  | requirePolicy :: rest =>
      match overParticipants e requirePolicy (Count requirePolicy) participants with
      | Some r => r
      | None => overRequires e rest participants
      end
  end.

(** [FulfilledFor] checks if a session may run with a list of participants. *)
Definition FulfilledFor (e : SessionAccessEvaluator)
  (participants : list SessionAccessContext) : result (bool * PolicyOptions) :=
  match supportsSessionAccessControls e with
  | inl err => Err err
  | inr supported =>
      if (Z.of_nat (length (requires e)) =? 0) || negb supported
      then Ok (true, noOptions)
      else overRequires e (requires e) participants
  end.

End Evaluator.

(** ** The session tracker service: maintenance of the session list *)

Inductive SessionState : Type :=
| SessionStatePending
| SessionStateRunning
| SessionStateTerminated.

#[global] Instance SessionState_eq_dec : EqDecision SessionState.
Proof. solve_decision. Defined.

Definition isTerminated (st : SessionState) : bool :=
  match st with SessionStateTerminated => true | _ => false end.

Module Tracker.

(** The fields of a tracker resource the list maintenance reads.  Times
    are nanoseconds since the epoch. *)
Record SessionTracker : Type := {
    GetSessionID : string;
    GetState : SessionState;
    GetCreated : Z;
    GetExpires : Z
  }.

(** The backend as one client sees it: the value under the [list] key and
    the tracker resources under their session ids. *)
Record backend : Type := {
    sessionList : list string;
    sessions : gmap string SessionTracker
  }.

(** [time.Minute * 5] *)
Definition gcDelay : Z := 5 * 60 * 1000000000.

Definition loadSession (bk : backend) (sessionID : string)
  : result SessionTracker :=
  match sessions bk !! sessionID with
  | Some session => Ok session
  | None => Err (NotFound ("key " ++ sessionID ++ " is not found"))
  end.

Definition doGC (now : Z) (session : SessionTracker) : bool :=
  (GetCreated session + gcDelay <? now) && isTerminated (GetState session).

Definition isStale (now : Z) (session : SessionTracker) : bool :=
  GetExpires session <? now.

(** The loop of [removeSessionFromList] over [ids] (the slice [list] of
    the source) from index [i] on, [remaining] being [ids[i:]].  The first
    entry that is the requested one, or is collectable, or is stale, is cut
    out of the list and the loop is left ([break]).  The second [if doGC]
    of the loop body is only reached when the first condition is false,
    that is with [doGC] false, so its call of [RemoveSessionTracker] never
    runs. *)
Fixpoint scanList (now : Z) (bk : backend) (sessionID : string)
  (ids : list string) (i : nat) (remaining : list string)
  : result (bool * list string) :=
  match remaining with
  | [] => Ok (false, ids)
  | id :: rest =>
      match loadSession bk id with
      | inl err => Err err
      | inr session =>
          if String.eqb id sessionID || doGC now session || isStale now session
          then Ok (true, (take i ids ++ drop (S i) ids)%list)
          else scanList now bk sessionID ids (S i) rest
      end
  end.

(** [removeSessionFromList], for a client that is alone on the backend:
    the compare-and-swap finds the list item it has read. *)
Definition removeSessionFromList (now : Z) (bk : backend) (sessionID : string)
  : result backend :=
  '(found, ids) ← scanList now bk sessionID (sessionList bk) 0 (sessionList bk);
  if negb found then
    Err (NotFound ("session " ++ sessionID ++ " not found in list"))
  else
    Ok {| sessionList := ids; sessions := sessions bk |}.

(** [RemoveSessionTracker]: the list first, then the key of the resource. *)
Definition RemoveSessionTracker (now : Z) (bk : backend) (sessionID : string)
  : result backend :=
  bk' ← removeSessionFromList now bk sessionID;
  match sessions bk' !! sessionID with
  | None => Err (NotFound ("key " ++ sessionID ++ " is not found"))
  | Some _ =>
      Ok {| sessionList := sessionList bk';
            sessions := delete sessionID (sessions bk') |}
  end.

(** The list after [Remove(id)] as section 4.C words it: the requested
    entry goes, and so does every entry that is terminated and older than
    the collection delay or whose expiry has passed.  An entry without a
    resource is kept. *)
Definition isGarbage (now : Z) (bk : backend) (id : string) : bool :=
  match sessions bk !! id with
  | Some session => doGC now session || isStale now session
  | None => false
  end.

Definition specListAfterRemove (now : Z) (bk : backend) (sessionID : string)
  : list string :=
  List.filter
    (fun id => negb (String.eqb id sessionID || isGarbage now bk id))
    (sessionList bk).

End Tracker.

(** ** The live Kubernetes session *)

Module Session.

(** UUIDs in their printed form, so that [id.String()] is the identity. *)
Definition UUID := string.

(** The parts of [authContext] the session reads: [User.GetName()] and,
    from the identity, the groups (role names), the impersonator and the
    MFA device. *)
Record authContext : Type := {
    User : string;
    Groups : list string;
    Impersonator : string;
    MFAVerified : string
  }.

(** A party.  Its client and its [closeOnce] are kept on the side: the
    session maps share one party object per id, see [closedParties]. *)
Record party : Type := {
    Ctx : authContext;
    ID : UUID;
    Mode : SessionParticipantMode
  }.

(** *** Audit events *)

(** The Go struct of an event ([apievents.SessionJoin], ...). *)
Inductive eventStruct : Type :=
  | SessionStart | SessionJoin | SessionLeave | SessionData | SessionEnd | Exec.

(** The event type and event code constants of [lib/events], by name. *)
Inductive eventType : Type :=
  | SessionStartEvent | SessionJoinEvent | SessionLeaveEvent
  | SessionDataEvent | SessionEndEvent | ExecEvent.

Inductive eventCode : Type :=
  | SessionStartCode | SessionJoinCode | SessionLeaveCode
  | SessionDataCode | SessionEndCode | ExecCode | ExecFailureCode.

Record auditEvent : Type := {
    Struct : eventStruct;
    MetadataType : eventType;
    MetadataCode : option eventCode;
    SessionID : string;
    UserName : string;          (* UserMetadata.User *)
    Login : string;
    Participants : list string  (* SessionEnd only *)
  }.

(** The event type that names each event struct in the audit log. *)
Definition typeOfStruct (st : eventStruct) : eventType :=
  match st with
  | SessionStart => SessionStartEvent
  | SessionJoin => SessionJoinEvent
  | SessionLeave => SessionLeaveEvent
  | SessionData => SessionDataEvent
  | SessionEnd => SessionEndEvent
  | Exec => ExecEvent
  end.

#[global] Instance eventType_eq_dec : EqDecision eventType.
Proof. solve_decision. Defined.

(** *** Collaborators *)

(** Requests sent to [AuthClient.UpdateSessionTracker]. *)
Inductive trackerUpdate : Type :=
  | UpdateState (st : SessionState)
  | AddParticipant (id : string) (user : string) (mode : string)
  | RemoveParticipant (id : string).

(** The collaborators of the session that are outside the files at hand,
    by the error (or value) each call returns. *)
Record Env : Type := {
    GetRole : string -> result Role;                     (* CachingAuthClient *)
    UpdateSessionTracker : trackerUpdate -> option error; (* AuthClient *)
    stdoutWrite : UUID -> option error;  (* p.Client.stdoutStream().Write *)
    clientClose : UUID -> option error;  (* p.Client.Close *)
    paramPodName : string;               (* s.params.ByName("podName") *)
    noAuditEvents : bool;                (* s.sess.noAuditEvents *)
    newStreamer : option error;
    NewAuditWriter : option error;
    getExecutor : option error;
    executorStream : option error        (* executor.Stream(options) *)
  }.

(** Goroutines started by the session. *)
Inductive goroutine : Type :=
  | GoClose
  | GoLaunch
  | GoWaitOnAccess
  | GoForceTerminateWatch (id : UUID)
  | GoExpiryWatch
  | GoPresenceTicker.

(** Calls on collaborators, in the order they are made. *)
Inductive effect : Type :=
  | BroadcastMessage (msg : string)
  | EmitAuditEvent (ev : auditEvent)
  | TrackerRequest (req : trackerUpdate)
  | StateUpdateSubmit (st : SessionState)
  | StateUpdateClose
  | ResizeQueueAdd (id : string)
  | ResizeQueueRemove (id : string)
  | AddReader (id : string)
  | DeleteReader (id : string)
  | AddWriter (id : string)
  | DeleteWriter (id : string)
  | IOClose
  | WriteRecentHistory (id : UUID)
  | SendStatus (id : UUID)
  | ClientClose (id : UUID)
  | RecorderClose
  | Go (g : goroutine).

(** Modelled from the spec: [srv.TermManager] is outside the files at
    hand.  Following section 4.D it holds a set of named readers, a set of
    named writers and an on/off gate. *)
Record TermManager : Type := {
    readers : gset string;
    writers : gset string;
    ioOn : bool;
    ioClosed : bool;
    onWriteErrorSet : bool
  }.

Inductive emitterKind : Type :=
  | DiscardEmitter | RecorderEmitter | StreamEmitter.

(** The session.  [closed] is the latch of [closeOnce] (and [closeC]);
    [closedParties] holds the parties whose own [closeOnce] has fired;
    [resizeQueues] are the keys of [terminalSizeQueue.queues]; [effects]
    is the trace of calls on collaborators, oldest first. *)
Record session : Type := {
    ctx : authContext;
    id : UUID;
    parties : gmap UUID party;
    partiesHistorical : gmap UUID party;
    io : TermManager;
    resizeQueues : gset string;
    resizeCallbackSet : bool;
    state : SessionState;
    accessEvaluator : SessionAccessEvaluator;
    recorder : bool;
    emitter : emitterKind;
    tty : bool;
    podName : string;
    started : bool;
    initiator : UUID;
    closed : bool;
    closedParties : gset UUID;
    PresenceEnabled : bool;
    effects : list effect
  }.

Definition withParties (f : gmap UUID party -> gmap UUID party)
  (s : session) : session :=
  Build_session (ctx s) (id s) (f (parties s)) (partiesHistorical s) (io s)
    (resizeQueues s) (resizeCallbackSet s) (state s) (accessEvaluator s)
    (recorder s) (emitter s) (tty s) (podName s) (started s) (initiator s)
    (closed s) (closedParties s) (PresenceEnabled s) (effects s).

Definition withPartiesHistorical (f : gmap UUID party -> gmap UUID party)
  (s : session) : session :=
  Build_session (ctx s) (id s) (parties s) (f (partiesHistorical s)) (io s)
    (resizeQueues s) (resizeCallbackSet s) (state s) (accessEvaluator s)
    (recorder s) (emitter s) (tty s) (podName s) (started s) (initiator s)
    (closed s) (closedParties s) (PresenceEnabled s) (effects s).

Definition withIO (f : TermManager -> TermManager) (s : session) : session :=
  Build_session (ctx s) (id s) (parties s) (partiesHistorical s) (f (io s))
    (resizeQueues s) (resizeCallbackSet s) (state s) (accessEvaluator s)
    (recorder s) (emitter s) (tty s) (podName s) (started s) (initiator s)
    (closed s) (closedParties s) (PresenceEnabled s) (effects s).

Definition withResizeQueues (f : gset string -> gset string)
  (s : session) : session :=
  Build_session (ctx s) (id s) (parties s) (partiesHistorical s) (io s)
    (f (resizeQueues s)) (resizeCallbackSet s) (state s) (accessEvaluator s)
    (recorder s) (emitter s) (tty s) (podName s) (started s) (initiator s)
    (closed s) (closedParties s) (PresenceEnabled s) (effects s).

Definition withResizeCallbackSet (b : bool) (s : session) : session :=
  Build_session (ctx s) (id s) (parties s) (partiesHistorical s) (io s)
    (resizeQueues s) b (state s) (accessEvaluator s) (recorder s) (emitter s)
    (tty s) (podName s) (started s) (initiator s) (closed s) (closedParties s)
    (PresenceEnabled s) (effects s).

Definition withState (st : SessionState) (s : session) : session :=
  Build_session (ctx s) (id s) (parties s) (partiesHistorical s) (io s)
    (resizeQueues s) (resizeCallbackSet s) st (accessEvaluator s) (recorder s)
    (emitter s) (tty s) (podName s) (started s) (initiator s) (closed s)
    (closedParties s) (PresenceEnabled s) (effects s).

Definition withRecorder (b : bool) (s : session) : session :=
  Build_session (ctx s) (id s) (parties s) (partiesHistorical s) (io s)
    (resizeQueues s) (resizeCallbackSet s) (state s) (accessEvaluator s) b
    (emitter s) (tty s) (podName s) (started s) (initiator s) (closed s)
    (closedParties s) (PresenceEnabled s) (effects s).

Definition withEmitter (k : emitterKind) (s : session) : session :=
  Build_session (ctx s) (id s) (parties s) (partiesHistorical s) (io s)
    (resizeQueues s) (resizeCallbackSet s) (state s) (accessEvaluator s)
    (recorder s) k (tty s) (podName s) (started s) (initiator s) (closed s)
    (closedParties s) (PresenceEnabled s) (effects s).

Definition withPodName (n : string) (s : session) : session :=
  Build_session (ctx s) (id s) (parties s) (partiesHistorical s) (io s)
    (resizeQueues s) (resizeCallbackSet s) (state s) (accessEvaluator s)
    (recorder s) (emitter s) (tty s) n (started s) (initiator s) (closed s)
    (closedParties s) (PresenceEnabled s) (effects s).

Definition withStarted (b : bool) (s : session) : session :=
  Build_session (ctx s) (id s) (parties s) (partiesHistorical s) (io s)
    (resizeQueues s) (resizeCallbackSet s) (state s) (accessEvaluator s)
    (recorder s) (emitter s) (tty s) (podName s) b (initiator s) (closed s)
    (closedParties s) (PresenceEnabled s) (effects s).

Definition withClosed (b : bool) (s : session) : session :=
  Build_session (ctx s) (id s) (parties s) (partiesHistorical s) (io s)
    (resizeQueues s) (resizeCallbackSet s) (state s) (accessEvaluator s)
    (recorder s) (emitter s) (tty s) (podName s) (started s) (initiator s) b
    (closedParties s) (PresenceEnabled s) (effects s).

Definition withClosedParties (f : gset UUID -> gset UUID)
  (s : session) : session :=
  Build_session (ctx s) (id s) (parties s) (partiesHistorical s) (io s)
    (resizeQueues s) (resizeCallbackSet s) (state s) (accessEvaluator s)
    (recorder s) (emitter s) (tty s) (podName s) (started s) (initiator s)
    (closed s) (f (closedParties s)) (PresenceEnabled s) (effects s).

Definition withEffects (f : list effect -> list effect)
  (s : session) : session :=
  Build_session (ctx s) (id s) (parties s) (partiesHistorical s) (io s)
    (resizeQueues s) (resizeCallbackSet s) (state s) (accessEvaluator s)
    (recorder s) (emitter s) (tty s) (podName s) (started s) (initiator s)
    (closed s) (closedParties s) (PresenceEnabled s) (f (effects s)).

Definition withReaders (f : gset string -> gset string) (t : TermManager) : TermManager :=
  Build_TermManager (f (readers t)) (writers t) (ioOn t) (ioClosed t) (onWriteErrorSet t).

Definition withWriters (f : gset string -> gset string) (t : TermManager) : TermManager :=
  Build_TermManager (readers t) (f (writers t)) (ioOn t) (ioClosed t) (onWriteErrorSet t).

Definition withIOOn (b : bool) (t : TermManager) : TermManager :=
  Build_TermManager (readers t) (writers t) b (ioClosed t) (onWriteErrorSet t).

Definition withIOClosed (b : bool) (t : TermManager) : TermManager :=
  Build_TermManager (readers t) (writers t) (ioOn t) b (onWriteErrorSet t).

Definition withOnWriteError (b : bool) (t : TermManager) : TermManager :=
  Build_TermManager (readers t) (writers t) (ioOn t) (ioClosed t) b.

(** *** Methods run against the session: state and errors

      A method takes the session and gives back what it returns together
      with the session as it has left it.  An error ends the method where
      it is returned; whatever was written to the session before stays. *)
Definition SessionM (A : Type) : Type := session -> result A * session.

Definition ret {A : Type} (a : A) : SessionM A := fun s => (inr a, s).
Definition bind {A B : Type} (m : SessionM A) (k : A -> SessionM B) : SessionM B :=
    fun s => match m s with
             | (inl err, s') => (inl err, s')
             | (inr a, s') => k a s'
             end.
Definition fail {A : Type} (err : error) : SessionM A := fun s => (inl err, s).
Definition get : SessionM session := fun s => (inr s, s).
Definition modify (f : session -> session) : SessionM unit := fun s => (inr tt, f s).
  (** A call whose error is the method's error. *)
Definition check (e : option error) : SessionM unit :=
    match e with Some err => fail err | None => ret tt end.
Definition lift {A : Type} (r : result A) : SessionM A := fun s => (r, s).
  (** A call whose error is logged and dropped. *)
Definition logged {A : Type} (m : SessionM A) : SessionM unit :=
    fun s => (inr tt, snd (m s)).
Definition when (b : bool) (m : SessionM unit) : SessionM unit :=
    if b then m else ret tt.
Definition perform (e : effect) : SessionM unit :=
    modify (withEffects (fun es => (es ++ [e])%list)).

Fixpoint forEach {A : Type} (l : list A) (body : A -> SessionM unit) : SessionM unit :=
  match l with
  | [] => ret tt
  | a :: rest => bind (body a) (fun _ => forEach rest body)
  end.

#[global] Instance SessionM_ret : MRet SessionM := @ret.
#[global] Instance SessionM_bind : MBind SessionM := fun A B k m => bind m k.

Section Methods.

Variable whereParser : WhereParser.
Variable globMatch : string -> string -> bool.
Variable env : Env.

Definition broadcastMessage (msg : string) : SessionM unit :=
  perform (BroadcastMessage msg).

(** [s.emitter.EmitAuditEvent]: a failure is logged and dropped. *)
Definition emitAuditEvent (ev : auditEvent) : SessionM unit :=
  perform (EmitAuditEvent ev).

Fixpoint getRolesByName (roleNames : list string) : result (list Role) :=
  match roleNames with
  | [] => Ok []
  | roleName :: rest =>
      match GetRole env roleName with
      | inl err => Err err
      | inr role =>
          match getRolesByName rest with
          | inl err => Err err
          | inr roles => Ok (role :: roles)
          end
      end
  end.

Definition trackerAddParticipant (participant : party) : SessionM unit :=
  let req := AddParticipant (ID participant) (User (Ctx participant))
               (Mode participant) in
  perform (TrackerRequest req);;
  check (UpdateSessionTracker env req).

Definition trackerRemoveParticipant (participantID : string) : SessionM unit :=
  let req := RemoveParticipant participantID in
  perform (TrackerRequest req);;
  check (UpdateSessionTracker env req).

Definition trackerUpdateState (st : SessionState) : SessionM unit :=
  let req := UpdateState st in
  perform (TrackerRequest req);;
  check (UpdateSessionTracker env req).

(** [party.Close]: the body runs once per party. *)
Definition partyClose (p : party) : SessionM unit :=
  s ← get;
  if decide (ID p ∈ closedParties s) then ret tt
  else
    modify (withClosedParties (fun c => {[ID p]} ∪ c));;
    perform (ClientClose (ID p));;
    check (clientClose env (ID p)).

(** The loop of [canStart] over the parties, in the order [ps] the map
    happens to be walked in.  A party of the initiator's user is
    skipped; of any other party only the roles are put in the context,
    [Username] keeps its zero value. *)
Fixpoint canStartParticipants (initiatorUser : string) (ps : list party)
  : result (list SessionAccessContext) :=
  match ps with
  | [] => Ok []
  | party :: rest =>
      if String.eqb (User (Ctx party)) initiatorUser
      then canStartParticipants initiatorUser rest
      else
        match getRolesByName (Groups (Ctx party)) with
        | inl err => Err err
        | inr roles =>
            match canStartParticipants initiatorUser rest with
            | inl err => Err err
            | inr participants =>
                Ok ({| Username := ""; Roles := roles |} :: participants)
            end
        end
  end.

(** [canStart], walking [s.parties] in the order of [map_to_list]. *)
Definition canStart (s : session) : result (bool * PolicyOptions) :=
  match canStartParticipants (User (ctx s)) (snd <$> map_to_list (parties s)) with
  | inl err => Err err
  | inr participants =>
      FulfilledFor whereParser globMatch (accessEvaluator s) participants
  end.

(** [Close] terminates the session; the body is guarded by [closeOnce]
    and the method always returns [nil]. *)
Definition Close : SessionM unit :=
  s ← get;
  if closed s then ret tt
  else
    modify (withClosed true);;
    broadcastMessage "Closing session...";;
    modify (withState SessionStateTerminated);;
    modify (withIO (withIOClosed true));;
    perform IOClose;;
    perform (StateUpdateSubmit SessionStateTerminated);;
    perform StateUpdateClose;;
    logged (trackerUpdateState SessionStateTerminated);;
    s ← get;
    forEach (snd <$> map_to_list (parties s))
            (fun party => logged (partyClose party));;
    when (recorder s) (perform RecorderClose).

Definition sessionJoinEvent (s : session) (p : party) : auditEvent :=
  {| Struct := SessionJoin;
     MetadataType := SessionJoinEvent;
     MetadataCode := Some SessionJoinCode;
     SessionID := id s;
     UserName := User (Ctx p);
     Login := "root";
     Participants := [] |}.

(** [join] attempts to connect a party to the session. *)
Definition join (p : party) : SessionM unit :=
  s ← get;
  when (negb (String.eqb (User (Ctx p)) (User (ctx s))))
    (roles ← lift (getRolesByName (Groups (Ctx p)));
     let accessContext := {| Username := User (Ctx p); Roles := roles |} in
     modes ← lift (CanJoin globMatch (accessEvaluator s) accessContext);
     if negb (SliceContainsMode modes (Mode p))
     then fail (AccessDenied "insufficient permissions to join session")
     else ret tt);;
  let stringID := ID p in
  modify (withParties (<[ID p := p]>));;
  modify (withPartiesHistorical (<[ID p := p]>));;
  trackerAddParticipant p;;
  emitAuditEvent (sessionJoinEvent s p);;
  broadcastMessage ("User " ++ User (Ctx p) ++ " joined the session.");;
  when (tty s)
    (modify (withResizeQueues (fun q => {[stringID]} ∪ q));;
     perform (ResizeQueueAdd stringID));;
  when (tty s && String.eqb (User (Ctx p)) (User (ctx s)))
    (modify (withIO (withReaders (fun r => {[stringID]} ∪ r)));;
     perform (AddReader stringID));;
  perform (WriteRecentHistory (ID p));;
  check (stdoutWrite env (ID p));;
  modify (withIO (withWriters (fun w => {[stringID]} ∪ w)));;
  perform (AddWriter stringID);;
  when (negb (String.eqb (Mode p) SessionObserverMode))
    (perform (Go (GoForceTerminateWatch (ID p))));;
  s ← get;
  if negb (bool_decide (state s = SessionStatePending)) then ret tt
  else
    '(canStart, _) ← lift (canStart s);
    if started s && canStart then
      modify (withState SessionStateRunning);;
      perform (StateUpdateSubmit SessionStateRunning)
    else
      (if canStart then perform (Go GoLaunch)
       else if negb (tty s) then
         fail (AccessDenied "insufficient permissions to launch non-interactive session")
       else ret tt);;
      when (negb canStart)
        (broadcastMessage "Waiting for required participants...").

(** The event built by [leave]: an [apievents.SessionLeave] whose
    metadata carries the type and code constants of the join event. *)
Definition sessionLeaveEvent (s : session) (party : party) : auditEvent :=
  {| Struct := SessionLeave;
     MetadataType := SessionJoinEvent;
     MetadataCode := Some SessionJoinCode;
     SessionID := id s;
     UserName := User (Ctx party);
     Login := "root";
     Participants := [] |}.

(** [leave] removes a party from the session. *)
Definition leave (id : UUID) : SessionM unit :=
  s ← get;
  if bool_decide (state s = SessionStateTerminated) then ret tt
  else
    let stringID := id in
    match parties s !! id with
    | None => ret tt
    | Some party =>
        modify (withParties (delete id));;
        modify (withResizeQueues (fun q => q ∖ {[stringID]}));;
        perform (ResizeQueueRemove stringID);;
        modify (withIO (withReaders (fun r => r ∖ {[stringID]})));;
        perform (DeleteReader stringID);;
        modify (withIO (withWriters (fun w => w ∖ {[stringID]})));;
        perform (DeleteWriter stringID);;
        broadcastMessage ("User " ++ User (Ctx party) ++ " left the session.");;
        emitAuditEvent (sessionLeaveEvent s party);;
        trackerRemoveParticipant (ID party);;
        partyClose party;;
        s ← get;
        if (Z.of_nat (size (parties s)) =? 0) || String.eqb id (initiator s) then
          perform (Go GoClose)
        else
          '(canStart, options) ← lift (canStart s);
          if negb canStart then
            if TerminateOnLeave options then perform (Go GoClose)
            else
              modify (withState SessionStatePending);;
              perform (StateUpdateSubmit SessionStatePending);;
              perform (Go GoWaitOnAccess)
          else ret tt
    end.


(** [allParticipants]: the users of all historical parties. *)
Definition allParticipants (s : session) : list string :=
  (fun p => User (Ctx (snd p))) <$> map_to_list (partiesHistorical s).

Definition sessionStartEvent (s : session) : auditEvent :=
  {| Struct := SessionStart;
     MetadataType := SessionStartEvent;
     MetadataCode := Some SessionStartCode;
     SessionID := id s;
     UserName := User (ctx s);
     Login := User (ctx s);
     Participants := [] |}.

Definition sessionDataEvent (s : session) : auditEvent :=
  {| Struct := SessionData;
     MetadataType := SessionDataEvent;
     MetadataCode := Some SessionDataCode;
     SessionID := id s;
     UserName := User (ctx s);
     Login := User (ctx s);
     Participants := [] |}.

Definition sessionEndEvent (s : session) : auditEvent :=
  {| Struct := SessionEnd;
     MetadataType := SessionEndEvent;
     MetadataCode := Some SessionEndCode;
     SessionID := id s;
     UserName := User (ctx s);
     Login := User (ctx s);
     Participants := allParticipants s |}.

Definition execEvent (s : session) (err : option error) : auditEvent :=
  {| Struct := Exec;
     MetadataType := ExecEvent;
     MetadataCode := Some (match err with
                           | Some _ => ExecFailureCode
                           | None => ExecCode
                           end);
     SessionID := id s;
     UserName := User (ctx s);
     Login := User (ctx s);
     Participants := [] |}.

(** [launch] from its start to the point where it releases the session
    lock and calls the executor.  An error here makes [launch] return
    with the lock still held. *)
Definition launchBegin : SessionM unit :=
  perform (Go GoExpiryWatch);;
  s ← get;
  when (PresenceEnabled s) (perform (Go GoPresenceTicker));;
  broadcastMessage "Launching session...";;
  modify (withPodName (paramPodName env));;
  trackerUpdateState SessionStateRunning;;
  modify (withStarted true);;
  modify (withIO (withOnWriteError true));;
  modify (withResizeCallbackSet true);;
  (if negb (noAuditEvents env) && tty s then
     check (newStreamer env);;
     modify (withRecorder true);;
     modify (withEmitter RecorderEmitter);;
     check (NewAuditWriter env);;
     modify (withIO (withWriters (fun w => {["recorder"]} ∪ w)));;
     perform (AddWriter "recorder")
   else
     when (negb (noAuditEvents env)) (modify (withEmitter StreamEmitter)));;
  when (tty s) (emitAuditEvent (sessionStartEvent s));;
  check (getExecutor env).

(** The deferred function [launch] registers once it has an executor: it
    runs when the executor has returned [err]. *)
Definition launchDeferred (err : option error) : SessionM unit :=
  s ← get;
  forEach (snd <$> map_to_list (parties s))
          (fun party => perform (SendStatus (ID party)));;
  if tty s then
    emitAuditEvent (sessionDataEvent s);;
    emitAuditEvent (sessionEndEvent s)
  else
    emitAuditEvent (execEvent s err).

(** How a call of [launch] ends: when it returns before the executor
    exists, the deferred [Close] waits for the session lock that [launch]
    itself still holds, and its body does not run; otherwise [launch]
    returns what the executor has returned, after the deferred functions
    (status and events, then [Close]). *)
Inductive launchOutcome : Type :=
  | LaunchBlocked (err : error)
  | LaunchReturned (err : option error).

Definition launchEnd (err : option error) (s : session) : session :=
  snd (Close (snd (launchDeferred err s))).

Definition launch (s : session) : launchOutcome * session :=
  match launchBegin s with
  | (inl err, s1) => (LaunchBlocked err, s1)
  | (inr _, s1) =>
      (LaunchReturned (executorStream env), launchEnd (executorStream env) s1)
  end.

(** [waitOnAccess] up to its wait on the state updates, and from the
    update [st] it wakes up on. *)
Definition waitOnAccessBegin : SessionM unit :=
  modify (withIO (withIOOn false));;
  broadcastMessage "Session paused, Waiting for required participants...".

Definition waitOnAccessEnd (st : SessionState) : SessionM unit :=
  match st with
  | SessionStateRunning =>
      broadcastMessage "Resuming session...";;
      modify (withIO (withIOOn true))
  | _ => ret tt
  end.

End Methods.

(** *** Runs of a session *)

(** What can happen to a session, one call at a time.  The two halves of
    [launch] and of [waitOnAccess] are separate steps, since other calls
    run while the executor streams and while the waiter waits. *)
Inductive operation : Type :=
  | OpJoin (p : party)
  | OpLeave (id : UUID)
  | OpLaunch
  | OpLaunchBegin
  | OpLaunchEnd (err : option error)
  | OpClose
  | OpWaitOnAccessBegin
  | OpWaitOnAccessEnd (st : SessionState).

Section Runs.

Variable whereParser : WhereParser.
Variable globMatch : string -> string -> bool.

Definition step (env : Env) (o : operation) (s : session) : session :=
  match o with
  | OpJoin p => snd (join whereParser globMatch env p s)
  | OpLeave id => snd (leave whereParser globMatch env id s)
  | OpLaunch => snd (launch env s)
  | OpLaunchBegin => snd (launchBegin env s)
  | OpLaunchEnd err => launchEnd env err s
  | OpClose => snd (Close env s)
  | OpWaitOnAccessBegin => snd (waitOnAccessBegin s)
  | OpWaitOnAccessEnd st => snd (waitOnAccessEnd st s)
  end.

(** A run: each step comes with the behaviour of the collaborators
    during that step. *)
Fixpoint run (ops : list (Env * operation)) (s : session) : session :=
  match ops with
  | [] => s
  | (env, o) :: rest => run rest (step env o s)
  end.

End Runs.

End Session.

(** ** Auxiliary notions used in the statements *)

(** A role of a version that predates moderated sessions. *)
Definition isLegacyVersion (v : string) : bool :=
  String.eqb v V1 || String.eqb v V2 || String.eqb v V3 || String.eqb v V4.

(** The count of a require policy is an [int32] above the least one, so
    that [left--] does not wrap around. *)
Definition countInRange (r : SessionRequirePolicy) : Prop :=
  min_int32 < Count r <= max_int32.

(** [participant] takes one off the count of [requirePolicy]. *)
Definition countedFor (whereParser : WhereParser)
  (globMatch : string -> string -> bool) (e : SessionAccessEvaluator)
  (requirePolicy : SessionRequirePolicy) (participant : SessionAccessContext)
  : bool :=
  match countsToward whereParser globMatch e participant requirePolicy
          (getAllowPolicies participant) with
  | inr true => true
  | _ => false
  end.


(** ** Concrete configurations *)

Module Examples.

Definition quoted (s : string) : string :=
  String doubleQuote EmptyString ++ s ++ String doubleQuote EmptyString.

(** [contains(participant.roles, "participant")] *)
Definition filterParticipant : string :=
  "contains(participant.roles, " ++ quoted "participant" ++ ")".

Definition requirePolicy (kinds : list string) (count : Z) (onLeave : string)
  : SessionRequirePolicy :=
  {| Filter := filterParticipant; RequireKinds := kinds;
     Count := count; OnLeave := onLeave |}.

Definition hostRole (version : string) (policies : list SessionRequirePolicy)
  : Role :=
  {| GetName := "host"; GetVersion := version;
     GetSessionRequirePolicies := policies; GetSessionJoinPolicies := [] |}.

Definition legacyRole : Role :=
  {| GetName := "legacy"; GetVersion := V4;
     GetSessionRequirePolicies := []; GetSessionJoinPolicies := [] |}.

Definition joinPolicy (hostNames kinds : list string) : SessionJoinPolicy :=
  {| JoinRoles := hostNames; JoinKinds := kinds; Modes := [SessionModeratorMode] |}.

Definition participantRole (kinds : list string) : Role :=
  {| GetName := "participant"; GetVersion := V5;
     GetSessionRequirePolicies := [];
     GetSessionJoinPolicies := [joinPolicy ["host"] kinds] |}.

Definition participant (name : string) (kinds : list string)
  : SessionAccessContext :=
  {| Username := name; Roles := [participantRole kinds] |}.

(** A Kubernetes session whose host role asks for one moderator. *)
Definition kubeEvaluator : SessionAccessEvaluator :=
  NewSessionAccessEvaluator
    [hostRole V5 [requirePolicy [KubernetesSessionKind] 1 OnSessionLeaveTerminate]]
    KubernetesSessionKind.

(** An SSH session whose first host role is current and whose second one
    is legacy. *)
Definition mixedRoles : list Role :=
  [hostRole V5 [requirePolicy [SSHSessionKind] 1 OnSessionLeaveTerminate];
   legacyRole].

(** An SSH session whose host role has a require policy of count 0. *)
Definition zeroCountEvaluator : SessionAccessEvaluator :=
  NewSessionAccessEvaluator
    [hostRole V5 [requirePolicy [SSHSessionKind] 0 OnSessionLeaveTerminate]]
    SSHSessionKind.

(** An SSH session with two require policies; the first one, of count 2,
    has no on-leave action set. *)
Definition twoPolicyEvaluator : SessionAccessEvaluator :=
  NewSessionAccessEvaluator
    [hostRole V5 [requirePolicy [SSHSessionKind] 2 "";
                  requirePolicy [SSHSessionKind] 1 OnSessionLeaveTerminate]]
    SSHSessionKind.

(** An SSH session with one well-formed require policy of count 2. *)
Definition moderatedEvaluator : SessionAccessEvaluator :=
  NewSessionAccessEvaluator
    [hostRole V5 [requirePolicy [SSHSessionKind] 2 OnSessionLeaveTerminate]]
    SSHSessionKind.

(** An SSH session whose require policy has the least [int32] as count. *)
Definition wrappingEvaluator : SessionAccessEvaluator :=
  NewSessionAccessEvaluator
    [hostRole V5 [requirePolicy [SSHSessionKind] min_int32 OnSessionLeaveTerminate]]
    SSHSessionKind.


Definition alice : SessionAccessContext := participant "alice" [SSHSessionKind].
Definition bob : SessionAccessContext := participant "bob" [SSHSessionKind].


End Examples.

(** A tracker store with two entries to collect before a live one. *)
Module TrackerExamples.

Import Tracker.

Definition second : Z := 1000000000.

Definition now : Z := 1000 * second.

(** Running, expired at second 500. *)
Definition staleSession : SessionTracker :=
  {| GetSessionID := "a"; GetState := SessionStateRunning;
     GetCreated := 0; GetExpires := 500 * second |}.

(** Terminated and created at second 0, more than five minutes ago. *)
Definition terminatedSession : SessionTracker :=
  {| GetSessionID := "b"; GetState := SessionStateTerminated;
     GetCreated := 0; GetExpires := 2000 * second |}.

(** Running, created at second 900, expiring at second 2000. *)
Definition liveSession : SessionTracker :=
  {| GetSessionID := "c"; GetState := SessionStateRunning;
     GetCreated := 900 * second; GetExpires := 2000 * second |}.

Definition store : backend :=
  {| sessionList := ["a"; "b"; "c"];
     sessions := <["a" := staleSession]>
                   (<["b" := terminatedSession]>
                      (<["c" := liveSession]> ∅)) |}.

End TrackerExamples.

(** A Kubernetes session of user [alice] and its collaborators. *)
Module SessionExamples.

Import Session.

Definition aliceContext : authContext :=
  {| User := "alice"; Groups := ["host"]; Impersonator := ""; MFAVerified := "" |}.

Definition bobContext : authContext :=
  {| User := "bob"; Groups := ["participant"]; Impersonator := ""; MFAVerified := "" |}.

Definition aliceParty : party :=
  {| Ctx := aliceContext; ID := "11111111-1111-1111-1111-111111111111";
     Mode := SessionPeerMode |}.

Definition bobParty : party :=
  {| Ctx := bobContext; ID := "22222222-2222-2222-2222-222222222222";
     Mode := SessionModeratorMode |}.

Definition hostRole : Role :=
  Examples.hostRole V5
    [Examples.requirePolicy [KubernetesSessionKind] 1 OnSessionLeaveTerminate].

Definition roleDirectory (roleName : string) : result Role :=
  if String.eqb roleName "host" then Ok hostRole
  else if String.eqb roleName "participant" then
    Ok (Examples.participantRole [KubernetesSessionKind])
  else Err (NotFound ("role " ++ roleName ++ " is not found")).

(** Collaborators that all succeed. *)
Definition env : Env :=
  {| GetRole := roleDirectory;
     UpdateSessionTracker := fun _ => None;
     stdoutWrite := fun _ => None;
     clientClose := fun _ => None;
     paramPodName := "pod";
     noAuditEvents := false;
     newStreamer := None;
     NewAuditWriter := None;
     getExecutor := None;
     executorStream := None |}.

(** The same, with an auth server that refuses tracker updates. *)
Definition envTrackerDenied : Env :=
  {| GetRole := roleDirectory;
     UpdateSessionTracker :=
       fun _ => Some (AccessDenied "access denied to perform action update on session_tracker");
     stdoutWrite := fun _ => None;
     clientClose := fun _ => None;
     paramPodName := "pod";
     noAuditEvents := false;
     newStreamer := None;
     NewAuditWriter := None;
     getExecutor := None;
     executorStream := None |}.

Definition newTermManager : TermManager :=
  {| readers := ∅; writers := ∅; ioOn := true; ioClosed := false;
     onWriteErrorSet := false |}.

(** The session as [newSession] leaves it, for an initiator party
    [aliceParty] that has not joined yet. *)
Definition newSession (withTTY : bool) : session :=
  {| ctx := aliceContext;
     id := "99999999-9999-9999-9999-999999999999";
     parties := ∅;
     partiesHistorical := ∅;
     io := newTermManager;
     resizeQueues := ∅;
     resizeCallbackSet := false;
     state := SessionStatePending;
     accessEvaluator := NewSessionAccessEvaluator [hostRole] KubernetesSessionKind;
     recorder := false;
     emitter := DiscardEmitter;
     tty := withTTY;
     podName := "";
     started := false;
     initiator := ID aliceParty;
     closed := false;
     closedParties := ∅;
     PresenceEnabled := false;
     effects := [] |}.

(** The session once [aliceParty] has joined. *)
Definition joinedSession : session :=
  snd (join specWhereParser specGlobMatch env aliceParty (newSession true)).

(** The session once it has been closed. *)
Definition closedSession : session :=
  snd (Close env joinedSession).

End SessionExamples.

(** A method keeps a property of the session: if the property holds when
    the method is called, it holds for the session the method leaves,
    whether the method returns an error or not. *)
Definition preserves (P : Session.session -> Prop) {A : Type}
  (m : Session.SessionM A) : Prop :=
  forall s, P s -> P (snd (m s)).

(** The session is terminated. *)
Definition terminated (s : Session.session) : Prop :=
  Session.state s = SessionStateTerminated.

(** Since the point where the trace of effects was [base], the party [id]
    has stayed out of the live roster and out of the registrations, and
    the trace has only grown. *)
Definition goneSince (id : Session.UUID) (base : list Session.effect)
  (s : Session.session) : Prop :=
  Session.parties s !! id = None
  /\ (id ∉ Session.readers (Session.io s))
  /\ (id ∉ Session.writers (Session.io s))
  /\ (id ∉ Session.resizeQueues s)
  /\ exists rest, Session.effects s = (base ++ rest)%list.

(** ** The session tracker service: creating and reading trackers *)

Module TrackerService.

Import Tracker.


(** The loop of [GetActiveSessionTrackers]: every id of the list is loaded,
    and the first failure is returned. *)
Fixpoint loadSessions (bk : backend) (ids : list string)
  : result (list SessionTracker) :=
  match ids with
  | [] => Ok []
  | sessionID :: rest =>
      match loadSession bk sessionID with
      | inl err => Err err
      | inr session =>
          match loadSessions bk rest with
          | inl err => Err err
          | inr sessions => Ok (session :: sessions)
          end
      end
  end.

Definition GetActiveSessionTrackers (bk : backend) : result (list SessionTracker) :=
  loadSessions bk (sessionList bk).

(** [addSessionToList], for a client that is alone on the backend: the id
    is appended, whether it is in the list already or not. *)
Definition addSessionToList (bk : backend) (sessionID : string) : backend :=
  {| sessionList := (sessionList bk ++ [sessionID])%list; sessions := sessions bk |}.

(** The fields of [proto.CreateSessionTrackerRequest] that reach the fields
    of the tracker kept in [SessionTracker]. *)
Record CreateSessionTrackerRequest : Type := {
  ID : string;
  Expires : Z
}.

Section Create.

(** The error of [bk.Create] for a key that is taken. *)
Variable AlreadyExists : string -> error.

(** [CreateSessionTracker] at time [now]: the id goes to the list first,
    then the resource is created under its key; what the method returns
    comes with the backend as it has left it. *)
Definition CreateSessionTracker (now : Z) (bk : backend)
  (req : CreateSessionTrackerRequest) : result SessionTracker * backend :=
  let session :=
    {| GetSessionID := ID req; GetState := SessionStatePending;
       GetCreated := now; GetExpires := Expires req |} in
  let bk := addSessionToList bk (GetSessionID session) in
  match sessions bk !! GetSessionID session with
  | Some _ => (Err (AlreadyExists (GetSessionID session)), bk)
  | None =>
      (Ok session,
       {| sessionList := sessionList bk;
          sessions := <[GetSessionID session := session]> (sessions bk) |})
  end.

End Create.

(** The scan of [removeSessionFromList] walks past [id]: its resource can be
    loaded, it is not the requested session, and it is neither collectable
    nor stale. *)
Definition passedByScan (now : Z) (bk : backend) (sessionID id : string) : bool :=
  match sessions bk !! id with
  | Some session =>
      negb (String.eqb id sessionID || doGC now session || isStale now session)
  | None => false
  end.

End TrackerService.

(** ** The live session: presence check and tracker creation *)

Module SessionChecks.

Import Session.

(** [PresenceMaxDifference]: [time.Minute], in nanoseconds. *)
Definition PresenceMaxDifference : Z := 60 * 1000000000.

(** A participant as the tracker lists it. *)
Record Participant : Type := {
  ParticipantID : string;
  ParticipantUser : string;
  ParticipantMode : string;
  LastActive : Z
}.

(** [time.Now().UTC().After(participant.LastActive.Add(PresenceMaxDifference))] *)
Definition inactive (now : Z) (participant : Participant) : bool :=
  LastActive participant + PresenceMaxDifference <? now.

Section Presence.

Variable whereParser : WhereParser.
Variable globMatch : string -> string -> bool.
Variable env : Env.

(** [checkPresence] at time [now]; [trackerGet] is what [s.trackerGet()]
    answers, the participants of the tracker or an error.  The ids of the
    tracker are the printed ids of the parties, which [uuid.Parse] gives
    back.  A failing [leave] is logged and the loop goes on. *)
Definition checkPresence (now : Z) (trackerGet : result (list Participant))
  : SessionM unit :=
  participants ← lift trackerGet;
  forEach participants
    (fun participant =>
       s ← get;
       if String.eqb (ParticipantID participant) (initiator s) then ret tt
       else if String.eqb (ParticipantMode participant) SessionModeratorMode
               && inactive now participant
       then logged (leave whereParser globMatch env (ParticipantID participant))
       else ret tt).

End Presence.

Section TrackerCreate.

(** The type assertion of [trackerCreate] on a host role: whether the role
    value is a pointer to a [types.RoleV5]. *)
Variable isRoleV5 : Role -> bool.

(** The loop of [trackerCreate] over the host roles: [hostRolesV5] is the
    slice built so far, a [None] being a nil pointer. *)
Fixpoint appendHostRoles (hostRolesV5 : list (option Role)) (hostRoles : list Role)
  : result (list (option Role)) :=
  match hostRoles with
  | [] => Ok hostRolesV5
  | role :: rest =>
      if isRoleV5 role
      then appendHostRoles (hostRolesV5 ++ [Some role])%list rest
      else Err (BadParameter "Found unexpected role structure")
  end.

(** The fields of the [proto.CreateSessionTrackerRequest] of [trackerCreate]
    that depend on the session, the party and the host roles. *)
Record createRequest : Type := {
  RequestID : string;
  RequestType : string;
  RequestInitiator : Participant;
  RequestHostUser : string;
  RequestHostRoles : list (option Role)
}.

(** [trackerCreate] at time [now] up to its call of the auth server: the
    request it sends, or the error it returns before sending anything.
    [make([]*types.RoleV5, len(hostRoles))] is a slice of as many nil
    pointers as there are host roles. *)
Definition trackerCreateRequest (now : Z) (s : session) (p : party)
  (hostRoles : list Role) : result createRequest :=
  let initiator :=
    {| ParticipantID := ID p; ParticipantUser := User (Ctx p);
       ParticipantMode := ""; LastActive := now |} in
  hostRolesV5 ← appendHostRoles (replicate (length hostRoles) None) hostRoles;
  Ok {| RequestID := id s;
        RequestType := KubernetesSessionKind;
        RequestInitiator := initiator;
        RequestHostUser := ParticipantUser initiator;
        RequestHostRoles := hostRolesV5 |}.

End TrackerCreate.

End SessionChecks.

(** A method that returns no error, whatever the session is. *)
Definition alwaysSucceeds {A : Type} (m : Session.SessionM A) : Prop :=
  forall s, exists a, fst (m s) = inr a.

(** Every live party is in the historical roster. *)
Definition liveInHistorical (s : Session.session) : Prop :=
  forall id, is_Some (Session.parties s !! id) ->
             is_Some (Session.partiesHistorical s !! id).

(** What the access check at the head of [join] asks of a party: it is of
    the user who started the session, or its roles can be fetched and
    [CanJoin] lists the mode it asks for. *)
Definition passesJoinCheck (globMatch : string -> string -> bool)
  (env : Session.Env) (p : Session.party) (s : Session.session) : Prop :=
  Session.User (Session.Ctx p) = Session.User (Session.ctx s)
  \/ exists roles modes,
       Session.getRolesByName env (Session.Groups (Session.Ctx p)) = Ok roles
       /\ CanJoin globMatch (Session.accessEvaluator s)
            {| Username := Session.User (Session.Ctx p); Roles := roles |}
          = Ok modes
       /\ SliceContainsMode modes (Session.Mode p) = true.

(** No condition on the session. *)
Definition anySession (s : Session.session) : Prop := True.

(** When the method is called on a session with [I] and returns without
    an error, the session it leaves has [Q]. *)
Definition ensures (I Q : Session.session -> Prop) {A : Type}
  (m : Session.SessionM A) : Prop :=
  forall s a, I s -> fst (m s) = inr a -> Q (snd (m s)).

(** A session of [SessionExamples] with [aliceParty] and a second party of
    the same user, a moderator, both joined. *)
Module PresenceExamples.

Import Session.

Definition secondParty : party :=
  {| Ctx := SessionExamples.aliceContext;
     ID := "33333333-3333-3333-3333-333333333333";
     Mode := SessionModeratorMode |}.

Definition twoPartySession : session :=
  snd (join specWhereParser specGlobMatch SessionExamples.env secondParty
         SessionExamples.joinedSession).

Definition second : Z := 1000000000.

Definition now : Z := 1000 * second.

Definition trackedInitiator : SessionChecks.Participant :=
  {| SessionChecks.ParticipantID := ID SessionExamples.aliceParty;
     SessionChecks.ParticipantUser := "alice";
     SessionChecks.ParticipantMode := SessionPeerMode;
     SessionChecks.LastActive := 0 |}.

(** Last active 90 seconds ago. *)
Definition trackedModerator : SessionChecks.Participant :=
  {| SessionChecks.ParticipantID := ID secondParty;
     SessionChecks.ParticipantUser := "alice";
     SessionChecks.ParticipantMode := SessionModeratorMode;
     SessionChecks.LastActive := 910 * second |}.

End PresenceExamples.

(** * Properties *)

(** ** Strings, int32 and globs *)

Lemma wrap32_in_range (z : Z) :
  min_int32 <= z <= max_int32 -> wrap32 z = z.
Proof.
  unfold wrap32, min_int32, max_int32. intros Hz.
  rewrite Z.mod_small by lia. lia.
Qed.

Lemma decr32_no_wrap (z : Z) :
  min_int32 < z <= max_int32 -> decr32 z = z - 1.
Proof.
  intros Hz. unfold decr32. apply wrap32_in_range.
  unfold min_int32, max_int32 in *. lia.
Qed.


(** ** The evaluator *)

Section EvaluatorFacts.

Variable whereParser : WhereParser.
Variable globMatch : string -> string -> bool.

Local Abbreviation FulfilledFor := (FulfilledFor whereParser globMatch).
Local Abbreviation overRequires := (overRequires whereParser globMatch).
Local Abbreviation overParticipants := (overParticipants whereParser globMatch).
Local Abbreviation countsToward := (countsToward whereParser globMatch).
Local Abbreviation countedFor := (countedFor whereParser globMatch).

Lemma supports_not_ssh (e : SessionAccessEvaluator) :
  kind e <> SSHSessionKind -> supportsSessionAccessControls e = Ok false.
Proof.
  intros Hk. unfold supportsSessionAccessControls.
  destruct (String.eqb_spec (kind e) SSHSessionKind); [contradiction | reflexivity].
Qed.

Lemma supports_kubernetes (hostRoles : list Role) :
  supportsSessionAccessControls
    (NewSessionAccessEvaluator hostRoles KubernetesSessionKind) = Ok false.
Proof. apply supports_not_ssh. discriminate. Qed.

Lemma FulfilledFor_unsupported (e : SessionAccessEvaluator)
  (participants : list SessionAccessContext) :
  supportsSessionAccessControls e = Ok false ->
  FulfilledFor e participants = Ok (true, noOptions).
Proof.
  intros H. unfold FulfilledFor. rewrite H. unfold Ok.
  rewrite orb_true_r. reflexivity.
Qed.

Lemma supports_first_legacy (role : Role) (rest : list Role) :
  isLegacyVersion (GetVersion role) = true ->
  supportsSessionAccessControls
    (NewSessionAccessEvaluator (role :: rest) SSHSessionKind) = Ok false.
Proof.
  intros H. unfold supportsSessionAccessControls. simpl.
  unfold isLegacyVersion in H. rewrite H. reflexivity.
Qed.

Lemma onLeaveOutcome_true (r : SessionRequirePolicy) (b : bool) (o : PolicyOptions) :
  onLeaveOutcome r = inr (b, o) -> b = true.
Proof.
  unfold onLeaveOutcome.
  repeat match goal with |- context [if ?c then _ else _] => destruct c end;
    unfold Ok, Err; congruence.
Qed.

Lemma overParticipants_Some_true (e : SessionAccessEvaluator)
  (r : SessionRequirePolicy) (ps : list SessionAccessContext) :
  forall (left : Z) (b : bool) (o : PolicyOptions),
    overParticipants e r left ps = Some (inr (b, o)) -> b = true.
Proof.
  induction ps as [|p ps IH]; intros left b o; simpl; [discriminate|].
  destruct (countsToward e p r (getAllowPolicies p)) as [err|counted];
    [unfold Err; congruence|].
  destruct (_ <=? 0).
  - intros [= H]. eapply onLeaveOutcome_true, H.
  - apply IH.
Qed.

(** How many of [ps] are counted toward [r]. *)
Local Abbreviation counted e r ps :=
  (Z.of_nat (length (List.filter (countedFor e r) ps))).

Lemma counted_step (e : SessionAccessEvaluator) (r : SessionRequirePolicy)
  (p : SessionAccessContext) (c : bool) (left : Z) :
  countsToward e p r (getAllowPolicies p) = inr c ->
  min_int32 < left <= max_int32 ->
  (if c then decr32 left else left)
  = left - (if countedFor e r p then 1 else 0).
Proof.
  intros Hc Hleft. unfold countedFor. rewrite Hc.
  destruct c; [apply decr32_no_wrap, Hleft | lia].
Qed.

(** The loop runs to its end only when what is left stays positive. *)
Lemma overParticipants_None (e : SessionAccessEvaluator)
  (r : SessionRequirePolicy) (ps : list SessionAccessContext) :
  forall left : Z,
    min_int32 < left <= max_int32 ->
    overParticipants e r left ps = None ->
    ps = [] \/ 0 < left - counted e r ps.
Proof.
  induction ps as [|p ps IH]; intros left Hleft; simpl; [auto|].
  destruct (countsToward e p r (getAllowPolicies p)) as [err|c] eqn:Hc;
    [discriminate|].
  rewrite (counted_step e r p c left Hc Hleft).
  destruct (countedFor e r p); simpl length;
    match goal with
    | |- context [?l <=? 0] => destruct (Z.leb_spec l 0) as [Hle|Hpos]
    end;
    try discriminate;
    intros Hrest; right;
    (apply IH in Hrest; [|unfold min_int32, max_int32 in *; lia]);
    destruct Hrest as [-> | Hrest]; simpl length; lia.
Qed.

(** The loop returns from inside only when nothing is left. *)
Lemma overParticipants_Some (e : SessionAccessEvaluator)
  (r : SessionRequirePolicy) (ps : list SessionAccessContext) :
  forall (left : Z) (res : bool * PolicyOptions),
    min_int32 < left <= max_int32 ->
    overParticipants e r left ps = Some (inr res) ->
    ps <> [] /\ left - counted e r ps <= 0.
Proof.
  induction ps as [|p ps IH]; intros left res Hleft; simpl; [discriminate|].
  destruct (countsToward e p r (getAllowPolicies p)) as [err|c] eqn:Hc;
    [unfold Err; congruence|].
  rewrite (counted_step e r p c left Hc Hleft).
  destruct (countedFor e r p); simpl length;
    match goal with
    | |- context [?l <=? 0] => destruct (Z.leb_spec l 0) as [Hle|Hpos]
    end;
    intros H; (split; [discriminate|]); try lia;
    (apply IH in H as [_ Hrest]; [|unfold min_int32, max_int32 in *; lia]);
    lia.
Qed.

Lemma overRequires_true (e : SessionAccessEvaluator)
  (reqs : list SessionRequirePolicy) (ps : list SessionAccessContext)
  (o : PolicyOptions) :
  overRequires e reqs ps = inr (true, o) ->
  exists r, In r reqs /\ overParticipants e r (Count r) ps = Some (inr (true, o)).
Proof.
  induction reqs as [|r reqs IH]; simpl; [unfold Ok; congruence|].
  destruct (overParticipants e r (Count r) ps) as [res|] eqn:Hr.
  - intros ->. exists r. auto.
  - intros H. destruct (IH H) as (r' & Hin & Hr'). exists r'. auto.
Qed.

Lemma overRequires_false (e : SessionAccessEvaluator)
  (reqs : list SessionRequirePolicy) (ps : list SessionAccessContext)
  (o : PolicyOptions) :
  overRequires e reqs ps = inr (false, o) ->
  forall r, In r reqs -> overParticipants e r (Count r) ps = None.
Proof.
  induction reqs as [|r reqs IH]; simpl; [contradiction|].
  destruct (overParticipants e r (Count r) ps) as [res|] eqn:Hr.
  - intros ->. apply overParticipants_Some_true in Hr. discriminate.
  - intros H r' [<- | Hin]; auto.
Qed.

Lemma overRequires_no_participants (e : SessionAccessEvaluator)
  (reqs : list SessionRequirePolicy) :
  overRequires e reqs [] = Ok (false, noOptions).
Proof. induction reqs as [|r reqs IH]; simpl; auto. Qed.

Lemma counted_superset (e : SessionAccessEvaluator) (r : SessionRequirePolicy)
  (S S' extra : list SessionAccessContext) :
  Permutation S' (S ++ extra) ->
  counted e r S <= counted e r S'.
Proof.
  intros Hperm.
  assert (Hlen : length (List.filter (countedFor e r) S')
                 = length (List.filter (countedFor e r) (S ++ extra))).
  { apply Permutation_length. clear -Hperm.
    induction Hperm; simpl; repeat destruct (countedFor e r _);
      eauto using Permutation. }
  rewrite Hlen, List.filter_app, List.length_app. lia.
Qed.

End EvaluatorFacts.

(** *** Kubernetes sessions and the version gate *)

(** For a Kubernetes evaluator the access controls are reported as not
    supported, and [FulfilledFor] answers before it looks at a policy. *)
Lemma FulfilledFor_kubernetes (whereParser : WhereParser)
  (globMatch : string -> string -> bool) (hostRoles : list Role)
  (participants : list SessionAccessContext) :
  FulfilledFor whereParser globMatch
    (NewSessionAccessEvaluator hostRoles KubernetesSessionKind) participants
  = Ok (true, noOptions).
Proof. apply FulfilledFor_unsupported, supports_kubernetes. Qed.

(** C1 (the code departs from the claim).  Claim: for [kind = kubernetes]
    and a non-empty set of require policies, [FulfilledFor] evaluates the
    require policies and returns [(false, {}, nil)] when no policy's count
    is met.  On the evaluator [kubeEvaluator] (one require policy for
    Kubernetes sessions, count 1) and no participants, the require policies
    are not met, and [FulfilledFor] returns [(true, {}, nil)] all the same:
    [supportsSessionAccessControls] falls through to [false] for every
    session that is not SSH. *)
Theorem FulfilledFor_kubernetes_ignores_require_policies :
  requires Examples.kubeEvaluator <> []
  /\ overRequires specWhereParser specGlobMatch Examples.kubeEvaluator
       (requires Examples.kubeEvaluator) [] = Ok (false, noOptions)
  /\ supportsSessionAccessControls Examples.kubeEvaluator = Ok false
  /\ FulfilledFor specWhereParser specGlobMatch Examples.kubeEvaluator []
     = Ok (true, noOptions).
Proof. repeat split; [discriminate | reflexivity ..]. Qed.

(** Against C3 as stated: with a current role first and a legacy role
    second, the SSH session is evaluated against its require policies, and
    an empty participant list does not fulfil them. *)
Lemma FulfilledFor_ssh_legacy_role_second :
  Exists (fun role => isLegacyVersion (GetVersion role) = true) Examples.mixedRoles
  /\ FulfilledFor specWhereParser specGlobMatch
       (NewSessionAccessEvaluator Examples.mixedRoles SSHSessionKind) []
     = Ok (false, noOptions).
Proof.
  split; [|reflexivity].
  apply Exists_cons_tl, Exists_cons_hd. reflexivity.
Qed.

(** C3 (amended).  For [kind = ssh] and a non-empty set of host roles that
    are all of a legacy version [v1..v4], [FulfilledFor] returns
    [(true, {}, nil)] for every participant list. *)
Theorem FulfilledFor_ssh_all_legacy (whereParser : WhereParser)
  (globMatch : string -> string -> bool) (hostRoles : list Role)
  (participants : list SessionAccessContext) :
  hostRoles <> [] ->
  Forall (fun role => isLegacyVersion (GetVersion role) = true) hostRoles ->
  FulfilledFor whereParser globMatch
    (NewSessionAccessEvaluator hostRoles SSHSessionKind) participants
  = Ok (true, noOptions).
Proof.
  intros Hne Hall. destruct hostRoles as [|role rest]; [contradiction|].
  apply FulfilledFor_unsupported, supports_first_legacy.
  apply Forall_inv in Hall. exact Hall.
Qed.

Lemma FulfilledFor_ssh_all_legacy_witness :
  FulfilledFor specWhereParser specGlobMatch
    (NewSessionAccessEvaluator [Examples.legacyRole; Examples.hostRole V3 []]
       SSHSessionKind)
    [Examples.alice]
  = Ok (true, noOptions).
Proof.
  apply (FulfilledFor_ssh_all_legacy specWhereParser specGlobMatch
           [Examples.legacyRole; Examples.hostRole V3 []] [Examples.alice]).
  - discriminate.
  - repeat constructor.
Defined.

(** *** Counts *)

(** With access controls in force and at least one require policy, an empty
    participant list fulfils nothing, whatever the counts are: the test
    [left <= 0] is made once per participant. *)
Lemma FulfilledFor_no_participants (whereParser : WhereParser)
  (globMatch : string -> string -> bool) (e : SessionAccessEvaluator) :
  supportsSessionAccessControls e = Ok true ->
  requires e <> [] ->
  FulfilledFor whereParser globMatch e [] = Ok (false, noOptions).
Proof.
  intros Hs Hne. unfold FulfilledFor. rewrite Hs. unfold Ok.
  destruct (requires e) as [|r reqs]; [contradiction|].
  simpl. apply overRequires_no_participants.
Qed.

(** C4 (the code departs from the claim).  Claim: a require policy with
    [count = 0] is fulfilled by the empty participant list.  On
    [zeroCountEvaluator] (SSH, a current host role, one require policy of
    count 0) access controls are supported, and [FulfilledFor] on the empty
    list returns [(false, {}, nil)]; the same policy is reported fulfilled
    as soon as the list holds one participant, even one that matches
    nothing. *)
Theorem FulfilledFor_zero_count_no_participants :
  Count <$> requires Examples.zeroCountEvaluator = [0]
  /\ supportsSessionAccessControls Examples.zeroCountEvaluator = Ok true
  /\ FulfilledFor specWhereParser specGlobMatch Examples.zeroCountEvaluator []
     = Ok (false, noOptions)
  /\ FulfilledFor specWhereParser specGlobMatch Examples.zeroCountEvaluator
       [{| Username := "nobody"; Roles := [] |}]
     = Ok (true, {| TerminateOnLeave := true |}).
Proof. repeat split. Qed.

(** *** Monotonicity *)

(** Against C8 as stated: [alice] fulfils the second require policy of
    [twoPolicyEvaluator]; with [bob] added the count of the first policy is
    met as well, and its unsupported on-leave action makes [FulfilledFor]
    fail. *)
Lemma FulfilledFor_superset_fails :
  FulfilledFor specWhereParser specGlobMatch Examples.twoPolicyEvaluator
    [Examples.alice] = Ok (true, {| TerminateOnLeave := true |})
  /\ Permutation [Examples.alice; Examples.bob] ([Examples.alice] ++ [Examples.bob])
  /\ FulfilledFor specWhereParser specGlobMatch Examples.twoPolicyEvaluator
       [Examples.alice; Examples.bob]
     = Err (BadParameter "unsupported on_leave policy: ").
Proof. repeat split. apply Permutation_refl. Qed.

(** With the least [int32] as count, a participant that counts makes
    [left--] wrap around to the greatest [int32]: the list [nobody] fulfils
    the policy and the longer list [alice; nobody] does not. *)
Lemma FulfilledFor_superset_wraps_around :
  let nobody := {| Username := "nobody"; Roles := [] |} in
  FulfilledFor specWhereParser specGlobMatch Examples.wrappingEvaluator [nobody]
  = Ok (true, {| TerminateOnLeave := true |})
  /\ FulfilledFor specWhereParser specGlobMatch Examples.wrappingEvaluator
       [Examples.alice; nobody]
     = Ok (false, noOptions).
Proof. vm_compute. split; reflexivity. Qed.

(** C8 (amended).  [FulfilledFor] is monotone in the participants up to
    errors: with every count a proper [int32] count, if [FulfilledFor(S)]
    returns true and [S'] holds all participants of [S] (with their
    multiplicity, in any order), then [FulfilledFor(S')] returns true or
    fails with an error; it never returns [(false, {}, nil)]. *)
Theorem FulfilledFor_monotone_up_to_errors (whereParser : WhereParser)
  (globMatch : string -> string -> bool) (e : SessionAccessEvaluator)
  (S S' extra : list SessionAccessContext) (o : PolicyOptions) :
  Forall countInRange (requires e) ->
  Permutation S' (S ++ extra) ->
  FulfilledFor whereParser globMatch e S = Ok (true, o) ->
  (exists o', FulfilledFor whereParser globMatch e S' = Ok (true, o'))
  \/ (exists err, FulfilledFor whereParser globMatch e S' = Err err).
Proof.
  intros Hrange Hperm. unfold FulfilledFor.
  destruct (supportsSessionAccessControls e) as [err|supported];
    [unfold Err, Ok; congruence|].
  destruct (_ || _); [intros _; left; eauto|].
  intros HS.
  destruct (overRequires whereParser globMatch e (requires e) S')
    as [err|[[] o']] eqn:HS'; [right; eauto | left; eauto |].
  exfalso.
  apply overRequires_true in HS as (r & Hin & Hr).
  pose proof (overRequires_false _ _ _ _ _ _ HS' r Hin) as Hnone.
  assert (Hc : countInRange r) by (eapply List.Forall_forall; eauto).
  apply overParticipants_Some in Hr as [Hne Hle]; [|exact Hc].
  apply overParticipants_None in Hnone as [-> | Hpos]; [| |exact Hc].
  - apply Permutation_nil in Hperm. destruct S; [contradiction|discriminate].
  - pose proof (counted_superset whereParser globMatch e r S S' extra Hperm). lia.
Qed.

Lemma FulfilledFor_monotone_up_to_errors_witness :
  (exists o', FulfilledFor specWhereParser specGlobMatch Examples.moderatedEvaluator
                [Examples.bob; Examples.alice; Examples.participant "carol" []]
              = Ok (true, o'))
  \/ (exists err, FulfilledFor specWhereParser specGlobMatch Examples.moderatedEvaluator
                    [Examples.bob; Examples.alice; Examples.participant "carol" []]
                  = Err err).
Proof.
  apply (FulfilledFor_monotone_up_to_errors specWhereParser specGlobMatch
           Examples.moderatedEvaluator [Examples.alice; Examples.bob]
           [Examples.bob; Examples.alice; Examples.participant "carol" []]
           [Examples.participant "carol" []] {| TerminateOnLeave := true |}).
  - repeat constructor; unfold min_int32, max_int32; simpl; lia.
  - simpl. apply perm_swap.
  - reflexivity.
Defined.

(** *** Join policies and host roles *)

Lemma matchesAllowRoles_true (globMatch : string -> string -> bool)
  (requireRole : Role) (allowRoles : list string) :
  matchesAllowRoles globMatch requireRole allowRoles = true
  <-> exists allowRole,
        In allowRole allowRoles /\ globMatch (GetName requireRole) allowRole = true.
Proof.
  induction allowRoles as [|a rest IH]; simpl.
  - split; [discriminate | intros (? & [] & _)].
  - destruct (globMatch (GetName requireRole) a) eqn:Ha.
    + split; [intros _; exists a; auto | reflexivity].
    + rewrite IH. split.
      * intros (x & Hin & Hx). exists x. auto.
      * intros (x & [<- | Hin] & Hx); [congruence | exists x; auto].
Qed.

Lemma matchesRequireRoles_true (globMatch : string -> string -> bool)
  (requireRoles : list Role) (allowRoles : list string) :
  matchesRequireRoles globMatch requireRoles allowRoles = true
  <-> exists requireRole allowRole,
        In requireRole requireRoles /\ In allowRole allowRoles
        /\ globMatch (GetName requireRole) allowRole = true.
Proof.
  induction requireRoles as [|r rest IH]; simpl.
  - split; [discriminate | intros (? & ? & [] & _)].
  - destruct (matchesAllowRoles globMatch r allowRoles) eqn:Hr.
    + split; [intros _ | reflexivity].
      apply matchesAllowRoles_true in Hr as (a & Hin & Ha).
      exists r, a. auto.
    + rewrite IH. split.
      * intros (x & a & Hx & Ha & Hm). exists x, a. auto.
      * intros (x & a & [<- | Hx] & Ha & Hm); [|exists x, a; auto].
        assert (matchesAllowRoles globMatch r allowRoles = true)
          by (apply matchesAllowRoles_true; eauto).
        congruence.
Qed.


(** What [matchesJoin] decides, for any matcher: the kinds of the join
    policy fit the session, and the name of some host role, taken as the
    glob, matches some entry of the join policy. *)
Lemma matchesJoin_true (globMatch : string -> string -> bool)
  (e : SessionAccessEvaluator) (allow : SessionJoinPolicy) :
  matchesJoin globMatch e allow = true
  <-> matchesKind e (JoinKinds allow) = true
      /\ exists requireRole allowRole,
           In requireRole (roles e) /\ In allowRole (JoinRoles allow)
           /\ globMatch (GetName requireRole) allowRole = true.
Proof.
  unfold matchesJoin. destruct (matchesKind e (JoinKinds allow)); simpl.
  - rewrite matchesRequireRoles_true. split; [auto | intros [_ H]; exact H].
  - split; [discriminate | intros [H _]; discriminate].
Qed.




(** ** The session list of the tracker *)

Section TrackerFacts.

Import Tracker.

(** A successful scan cuts exactly one entry out of the list. *)
Lemma scanList_cuts_one (now : Z) (bk : backend) (sessionID : string)
  (ids : list string) (remaining : list string) :
  forall (i : nat) (ids' : list string),
    drop i ids = remaining ->
    scanList now bk sessionID ids i remaining = Ok (true, ids') ->
    S (length ids') = length ids.
Proof.
  induction remaining as [|id rest IH]; intros i ids' Hdrop; simpl;
    [unfold Ok; congruence|].
  destruct (loadSession bk id) as [err|session]; [unfold Ok, Err; congruence|].
  assert (Hlt : (i < length ids)%nat).
  { destruct (Nat.lt_ge_cases i (length ids)) as [|Hge]; [assumption|].
    rewrite drop_ge in Hdrop by lia. discriminate. }
  destruct (_ || _).
  - intros [= <-]. rewrite length_app, length_take, length_drop. lia.
  - apply IH. replace (S i) with (i + 1)%nat by lia.
    rewrite <- drop_drop, Hdrop. reflexivity.
Qed.

Lemma removeSessionFromList_cuts_one (now : Z) (bk bk' : backend)
  (sessionID : string) :
  removeSessionFromList now bk sessionID = Ok bk' ->
  S (length (sessionList bk')) = length (sessionList bk)
  /\ sessions bk' = sessions bk.
Proof.
  unfold removeSessionFromList.
  destruct (scanList now bk sessionID (sessionList bk) 0 (sessionList bk))
    as [err|[[] ids]] eqn:Hscan; simpl; unfold Ok, Err; try congruence.
  intros [= <-]. simpl. split; [|reflexivity].
  eapply scanList_cuts_one; [|exact Hscan]. reflexivity.
Qed.

End TrackerFacts.

(** C9 (the code departs from the claim).  Claim: [Remove(id)] drops from
    the list, together with the requested id, every entry that is
    terminated and older than the collection delay and every entry whose
    expiry has passed.  On the store of [TrackerExamples] (list [a; b; c]
    with [a] expired, [b] terminated long ago and [c] live) removing [c]
    leaves [b; c]: the scan stops at the first entry it cuts out, so the
    collectable [b] stays, and so does the requested [c], whose resource is
    deleted afterwards.  The list the specification asks for is empty. *)
Theorem removeSessionFromList_stops_at_first_cut :
  (Tracker.sessionList <$> Tracker.removeSessionFromList TrackerExamples.now
                     TrackerExamples.store "c") = Ok ["b"; "c"]
  /\ Tracker.specListAfterRemove TrackerExamples.now TrackerExamples.store "c" = []
  /\ (Tracker.sessionList <$> Tracker.RemoveSessionTracker TrackerExamples.now
                                TrackerExamples.store "c") = Ok ["b"; "c"].
Proof. vm_compute. repeat split. Qed.

(** ** The live session *)

Section SessionFacts.

Import Session.

Variable whereParser : WhereParser.
Variable globMatch : string -> string -> bool.

Lemma bind_get {A : Type} (k : session -> SessionM A) (s : session) :
  (get ≫= k) s = k s s.
Proof. reflexivity. Qed.

Lemma bind_modify {A : Type} (f : session -> session) (k : unit -> SessionM A)
  (s : session) :
  (modify f ≫= k) s = k tt (f s).
Proof. reflexivity. Qed.

Lemma bind_perform {A : Type} (e : effect) (k : unit -> SessionM A) (s : session) :
  (perform e ≫= k) s = k tt (withEffects (fun es => (es ++ [e])%list) s).
Proof. reflexivity. Qed.

Lemma bind_ret {A B : Type} (a : A) (k : A -> SessionM B) (s : session) :
  (ret a ≫= k) s = k a s.
Proof. reflexivity. Qed.

Lemma bind_lift {A B : Type} (r : result A) (k : A -> SessionM B) (s : session) :
  (lift r ≫= k) s = match r with inl err => (inl err, s) | inr a => k a s end.
Proof. destruct r; reflexivity. Qed.

Lemma bind_fail {A B : Type} (err : error) (k : A -> SessionM B) (s : session) :
  (fail err ≫= k) s = (inl err, s).
Proof. reflexivity. Qed.

Lemma bind_assoc {A B C : Type} (m : SessionM A) (f : A -> SessionM B)
  (g : B -> SessionM C) (s : session) :
  ((m ≫= f) ≫= g) s = (m ≫= (fun a => f a ≫= g)) s.
Proof.
  unfold mbind, SessionM_bind, bind. destruct (m s) as [[err|a] s']; reflexivity.
Qed.

Lemma when_false (m : SessionM unit) : when false m = ret tt.
Proof. reflexivity. Qed.

Lemma check_None : check None = ret tt.
Proof. reflexivity. Qed.

(** Runs the straight-line part of a method on the session at hand. *)
Ltac execute :=
  repeat (first [ rewrite bind_ret | rewrite bind_modify | rewrite bind_perform
                | rewrite bind_get | rewrite when_false | rewrite check_None ];
          cbv beta).

Section Preservation.

Variable P : session -> Prop.

Lemma preserves_ret {A : Type} (a : A) : preserves P (ret a).
Proof. intros s Hs. exact Hs. Qed.

Lemma preserves_fail {A : Type} (err : error) : preserves P (@fail A err).
Proof. intros s Hs. exact Hs. Qed.

Lemma preserves_lift {A : Type} (r : result A) : preserves P (lift r).
Proof. intros s Hs. exact Hs. Qed.

Lemma preserves_check (e : option error) : preserves P (check e).
Proof. intros s Hs. destruct e; exact Hs. Qed.

Lemma preserves_modify (f : session -> session) :
  (forall s, P s -> P (f s)) -> preserves P (modify f).
Proof. intros Hf s Hs. apply Hf, Hs. Qed.

Lemma preserves_bind {A B : Type} (m : SessionM A) (k : A -> SessionM B) :
  preserves P m -> (forall a, preserves P (k a)) -> preserves P (m ≫= k).
Proof.
  intros Hm Hk s Hs. specialize (Hm s Hs).
  unfold mbind, SessionM_bind, bind. destruct (m s) as [[err|a] s']; simpl in *.
  - exact Hm.
  - apply Hk, Hm.
Qed.

Lemma preserves_get_bind {A : Type} (k : session -> SessionM A) :
  (forall s0, P s0 -> preserves P (k s0)) -> preserves P (get ≫= k).
Proof. intros Hk s Hs. rewrite bind_get. apply Hk; exact Hs. Qed.

Lemma preserves_when (b : bool) (m : SessionM unit) :
  preserves P m -> preserves P (when b m).
Proof. intros Hm. destruct b; [exact Hm | apply preserves_ret]. Qed.

Lemma preserves_logged {A : Type} (m : SessionM A) :
  preserves P m -> preserves P (logged m).
Proof. intros Hm s Hs. apply Hm, Hs. Qed.

Lemma preserves_forEach {A : Type} (l : list A) (body : A -> SessionM unit) :
  (forall a, preserves P (body a)) -> preserves P (forEach l body).
Proof.
  intros Hbody. induction l as [|a l IH]; simpl.
  - apply preserves_ret.
  - apply (preserves_bind (body a) (fun _ => forEach l body)); auto.
Qed.

End Preservation.

(** Walks through a method, one construct at a time; [side] settles what
    a write to the session has to keep. *)
Ltac preserve_step side :=
  lazymatch goal with
  | |- preserves _ (ret _) => apply preserves_ret
  | |- preserves _ (fail _) => apply preserves_fail
  | |- preserves _ (lift _) => apply preserves_lift
  | |- preserves _ (check _) => apply preserves_check
  | |- preserves _ (modify _) => apply preserves_modify; side
  | |- preserves _ (perform _) => apply preserves_modify; side
  | |- preserves _ (broadcastMessage _) => apply preserves_modify; side
  | |- preserves _ (emitAuditEvent _) => apply preserves_modify; side
  | |- preserves _ (get ≫= _) => apply preserves_get_bind; intros ? ?
  | |- preserves _ (_ ≫= _) => apply preserves_bind; [|intros ?]
  | |- preserves _ (when _ _) => apply preserves_when
  | |- preserves _ (logged _) => apply preserves_logged
  | |- preserves _ (forEach _ _) => apply preserves_forEach; intros ?
  | |- preserves _ (if ?c then _ else _) => destruct c eqn:?
  | |- preserves _ (match ?x with _ => _ end) => destruct x eqn:?
  end.

Ltac preserve side := repeat preserve_step side.

Ltac keeps_terminated :=
  idtac;
  let s := fresh "s" in let Hs := fresh "Hs" in
  intros s Hs; exact Hs.

(** [Close] on a closed session returns at once. *)
Lemma Close_closed_noop_any (env : Env) (s : session) :
  closed s = true -> Close env s = (Ok tt, s).
Proof.
  intros Hc. unfold Close. rewrite bind_get. rewrite Hc. reflexivity.
Qed.

Section Termination.

Variable env : Env.

Lemma trackerUpdateState_terminated (st : SessionState) :
  preserves terminated (trackerUpdateState env st).
Proof. unfold trackerUpdateState. preserve keeps_terminated. Qed.

Lemma trackerAddParticipant_terminated (p : party) :
  preserves terminated (trackerAddParticipant env p).
Proof. unfold trackerAddParticipant. preserve keeps_terminated. Qed.

Lemma partyClose_terminated (p : party) :
  preserves terminated (partyClose env p).
Proof. unfold partyClose. preserve keeps_terminated. Qed.

Lemma Close_terminated : preserves terminated (Close env).
Proof.
  unfold Close. pose proof trackerUpdateState_terminated.
  pose proof partyClose_terminated.
  preserve ltac:(first [keeps_terminated | intros; reflexivity]); auto.
Qed.

Lemma launchBegin_terminated : preserves terminated (launchBegin env).
Proof.
  unfold launchBegin. pose proof trackerUpdateState_terminated.
  preserve keeps_terminated; auto.
Qed.

Lemma launchDeferred_terminated (err : option error) :
  preserves terminated (launchDeferred err).
Proof. unfold launchDeferred. preserve keeps_terminated. Qed.

Lemma launchEnd_terminated (err : option error) (s : session) :
  terminated s -> terminated (launchEnd env err s).
Proof.
  intros Hs. unfold launchEnd.
  apply Close_terminated, launchDeferred_terminated, Hs.
Qed.

Lemma launch_terminated (s : session) :
  terminated s -> terminated (snd (launch env s)).
Proof.
  intros Hs. unfold launch.
  pose proof (launchBegin_terminated s Hs) as Hb.
  destruct (launchBegin env s) as [[err|[]] s1]; simpl in *; [exact Hb|].
  apply launchEnd_terminated, Hb.
Qed.

Lemma waitOnAccessBegin_terminated : preserves terminated waitOnAccessBegin.
Proof. unfold waitOnAccessBegin. preserve keeps_terminated. Qed.

Lemma waitOnAccessEnd_terminated (st : SessionState) :
  preserves terminated (waitOnAccessEnd st).
Proof. unfold waitOnAccessEnd. preserve keeps_terminated. Qed.

(** [leave] on a terminated session returns at once. *)
Lemma leave_terminated_noop (id : UUID) (s : session) :
  terminated s -> leave whereParser globMatch env id s = (Ok tt, s).
Proof.
  intros Hs. unfold leave. rewrite bind_get. rewrite Hs. reflexivity.
Qed.

(** Once [Close] has returned, the latch has fired. *)
Lemma Close_latches (s : session) : closed (snd (Close env s)) = true.
Proof.
  unfold Close. rewrite bind_get. destruct (closed s) eqn:Hc; [exact Hc|].
  rewrite bind_modify. cbv beta.
  match goal with
  | |- closed (snd (?m ?s1)) = true =>
      cut (preserves (fun s' => closed s' = true) m);
        [intros Hp; apply Hp; reflexivity|]
  end.
  unfold trackerUpdateState, partyClose.
  preserve ltac:(idtac; let s' := fresh "s" in let H := fresh "Hs" in
                 intros s' H; exact H).
Qed.

(** A second [Close] finds the latch fired and does nothing. *)
Lemma Close_twice (env' : Env) (s : session) :
  Close env' (snd (Close env s)) = (Ok tt, snd (Close env s)).
Proof. apply Close_closed_noop_any, Close_latches. Qed.

(** [join] on a terminated session registers the party and returns before
    it looks at the start conditions. *)
Lemma join_terminated (p : party) :
  preserves terminated (join whereParser globMatch env p).
Proof.
  unfold join. pose proof trackerAddParticipant_terminated.
  preserve keeps_terminated; auto.
  all: match goal with
       | Hs : terminated ?s, Hif : negb (bool_decide (state ?s = _)) = false |- _ =>
           unfold terminated in Hs; rewrite Hs in Hif; discriminate
       end.
Qed.

Lemma step_terminated (o : operation) (s : session) :
  terminated s -> terminated (step whereParser globMatch env o s).
Proof.
  intros Hs. destruct o; simpl.
  - apply join_terminated, Hs.
  - rewrite leave_terminated_noop by exact Hs. exact Hs.
  - apply launch_terminated, Hs.
  - apply launchBegin_terminated, Hs.
  - apply launchEnd_terminated, Hs.
  - apply Close_terminated, Hs.
  - apply waitOnAccessBegin_terminated, Hs.
  - apply waitOnAccessEnd_terminated, Hs.
Qed.

End Termination.

Ltac keeps_gone :=
  idtac;
  let s := fresh "s" in
  let rest := fresh "rest" in
  let Hparties := fresh "Hparties" in
  let Hreaders := fresh "Hreaders" in
  let Hwriters := fresh "Hwriters" in
  let Hqueues := fresh "Hqueues" in
  let Heffects := fresh "Heffects" in
  intros s (Hparties & Hreaders & Hwriters & Hqueues & rest & Heffects);
  split; [exact Hparties|];
  split; [exact Hreaders|];
  split; [exact Hwriters|];
  split; [exact Hqueues|];
  simpl;
  first [ exists rest; exact Heffects
        | eexists; rewrite Heffects, <- app_assoc; reflexivity ].

Section Leaving.

Variable env : Env.

(** What [leave] has done for a live party of a session that is not
    terminated, whatever happens to the tracker update, to the closing of
    the party and to the start conditions afterwards. *)
Lemma leave_live_party (s : session) (id : UUID) (party : party) :
  state s <> SessionStateTerminated ->
  parties s !! id = Some party ->
  goneSince id
    (effects s
     ++ [ResizeQueueRemove id; DeleteReader id; DeleteWriter id;
         BroadcastMessage ("User " ++ User (Ctx party) ++ " left the session.");
         EmitAuditEvent (sessionLeaveEvent s party)])%list
    (snd (leave whereParser globMatch env id s)).
Proof.
  intros Hstate Hparty. unfold leave. rewrite bind_get.
  rewrite bool_decide_eq_false_2 by exact Hstate. rewrite Hparty.
  unfold broadcastMessage, emitAuditEvent.
  repeat (first [rewrite bind_modify | rewrite bind_perform]; cbv beta).
  match goal with
  | |- goneSince ?i ?b (snd (?m ?s9)) =>
      cut (preserves (goneSince i b) m);
        [intros Hp; apply Hp | clear Hstate Hparty]
  end.
  - repeat split; simpl.
    + apply lookup_delete_eq.
    + apply not_elem_of_difference. right. apply elem_of_singleton. reflexivity.
    + apply not_elem_of_difference. right. apply elem_of_singleton. reflexivity.
    + apply not_elem_of_difference. right. apply elem_of_singleton. reflexivity.
    + exists []. rewrite app_nil_r, <- !app_assoc. reflexivity.
  - unfold trackerRemoveParticipant, partyClose, broadcastMessage.
    preserve keeps_gone.
Qed.

End Leaving.

Section Joining.

Variable env : Env.

(** The second refusal of [join]: a session without a terminal whose
    start conditions are not met refuses the party after it has registered
    it.  The party is still in both rosters and among the writers. *)
Lemma join_refused_after_registration (s : session) (p : party)
  (o : PolicyOptions) :
  User (Ctx p) = User (ctx s) ->
  UpdateSessionTracker env (AddParticipant (ID p) (User (Ctx p)) (Mode p)) = None ->
  stdoutWrite env (ID p) = None ->
  state s = SessionStatePending ->
  tty s = false ->
  canStart whereParser globMatch env (withParties (<[ID p := p]>) s) = Ok (false, o) ->
  fst (join whereParser globMatch env p s)
  = Err (AccessDenied "insufficient permissions to launch non-interactive session")
  /\ parties (snd (join whereParser globMatch env p s)) !! ID p = Some p
  /\ partiesHistorical (snd (join whereParser globMatch env p s)) !! ID p = Some p
  /\ ID p ∈ writers (io (snd (join whereParser globMatch env p s))).
Proof.
  intros Huser Htracker Hwrite Hstate Htty Hstart.
  assert (Hjoin : exists s',
             join whereParser globMatch env p s
             = (Err (AccessDenied
                       "insufficient permissions to launch non-interactive session"),
                s')
             /\ parties s' = <[ID p := p]> (parties s)
             /\ partiesHistorical s' = <[ID p := p]> (partiesHistorical s)
             /\ writers (io s') = {[ID p]} ∪ writers (io s)).
  { unfold join. rewrite bind_get.
    rewrite Huser, String.eqb_refl, Htty. simpl negb. simpl andb.
    unfold trackerAddParticipant, emitAuditEvent, broadcastMessage.
    execute. rewrite bind_assoc. execute. rewrite Htracker. execute.
    rewrite Hwrite. execute.
    destruct (negb (String.eqb (Mode p) SessionObserverMode)); unfold when;
      execute;
      cbn [state started tty withEffects withIO withPartiesHistorical withParties];
      rewrite Hstate, bool_decide_eq_true_2 by reflexivity; cbn [negb];
      cbv iota;
      (match goal with
       | |- context [canStart whereParser globMatch env ?big] =>
           change (canStart whereParser globMatch env big)
             with (canStart whereParser globMatch env (withParties (<[ID p := p]>) s))
       end);
      rewrite bind_lift, Hstart; unfold Ok; cbv beta iota;
      rewrite andb_false_r, Htty; cbn [negb]; cbv iota; rewrite bind_fail;
      eexists; (split; [reflexivity|]); repeat split. }
  destruct Hjoin as (s' & -> & Hp & Hh & Hw). simpl.
  rewrite Hp, Hh, Hw, !lookup_insert_eq.
  repeat split. apply elem_of_union_l, elem_of_singleton. reflexivity.
Qed.

(** In a session whose evaluator is the one [newSession] builds, the start
    conditions are reported as met whenever the roles can be fetched. *)
Lemma canStart_kubernetes (s : session) (hostRoles : list Role)
  (res : bool * PolicyOptions) :
  accessEvaluator s = NewSessionAccessEvaluator hostRoles KubernetesSessionKind ->
  canStart whereParser globMatch env s = Ok res ->
  res = (true, noOptions).
Proof.
  intros He. unfold canStart. rewrite He.
  destruct (canStartParticipants env _ _) as [err|participants];
    [unfold Err, Ok; congruence|].
  rewrite FulfilledFor_kubernetes. unfold Ok. congruence.
Qed.

End Joining.


Lemma run_terminated (ops : list (Env * operation)) :
  forall s, terminated s -> terminated (run whereParser globMatch ops s).
Proof.
  induction ops as [|[env o] ops IH]; intros s Hs; simpl; [exact Hs|].
  apply IH, step_terminated, Hs.
Qed.

End SessionFacts.

(** *** Refused joins *)

(** Against C5 as stated: with an auth server that refuses the tracker
    update, [join] returns an access-denied error for a party it has
    already put in both rosters. *)
Lemma join_access_denied_after_registration :
  fst (Session.join specWhereParser specGlobMatch SessionExamples.envTrackerDenied
         SessionExamples.aliceParty (SessionExamples.newSession true))
  = Err (AccessDenied "access denied to perform action update on session_tracker")
  /\ Session.parties (SessionExamples.newSession true)
       !! Session.ID SessionExamples.aliceParty = None
  /\ Session.parties
       (snd (Session.join specWhereParser specGlobMatch
               SessionExamples.envTrackerDenied SessionExamples.aliceParty
               (SessionExamples.newSession true)))
       !! Session.ID SessionExamples.aliceParty = Some SessionExamples.aliceParty
  /\ Session.partiesHistorical
       (snd (Session.join specWhereParser specGlobMatch
               SessionExamples.envTrackerDenied SessionExamples.aliceParty
               (SessionExamples.newSession true)))
       !! Session.ID SessionExamples.aliceParty = Some SessionExamples.aliceParty.
Proof. vm_compute. repeat split. Qed.

(** C5 (amended).  When [join] refuses a party because the mode it asks for
    is not among the modes [CanJoin] grants to it, [join] returns the
    access-denied error and the session is exactly as it was: rosters,
    registrations, state and trace of effects. *)
Theorem join_mode_refused_session_unchanged (whereParser : WhereParser)
  (globMatch : string -> string -> bool) (env : Session.Env)
  (s : Session.session) (p : Session.party) (hostRoles : list Role)
  (modes : list SessionParticipantMode) :
  Session.User (Session.Ctx p) <> Session.User (Session.ctx s) ->
  Session.getRolesByName env (Session.Groups (Session.Ctx p)) = Ok hostRoles ->
  CanJoin globMatch (Session.accessEvaluator s)
    {| Username := Session.User (Session.Ctx p); Roles := hostRoles |} = Ok modes ->
  SliceContainsMode modes (Session.Mode p) = false ->
  Session.join whereParser globMatch env p s
  = (Err (AccessDenied "insufficient permissions to join session"), s).
Proof.
  intros Huser Hroles Hmodes Hmode. unfold Session.join. rewrite bind_get.
  apply String.eqb_neq in Huser. rewrite Huser. cbn [negb]. unfold Session.when.
  rewrite bind_assoc, bind_lift, Hroles. unfold Ok. cbv beta iota.
  rewrite bind_assoc, bind_lift, Hmodes. unfold Ok. cbv beta iota.
  rewrite Hmode. reflexivity.
Qed.

Lemma join_mode_refused_session_unchanged_witness :
  Session.join specWhereParser specGlobMatch SessionExamples.env
    SessionExamples.bobParty SessionExamples.joinedSession
  = (Err (AccessDenied "insufficient permissions to join session"),
     SessionExamples.joinedSession).
Proof.
  apply (join_mode_refused_session_unchanged specWhereParser specGlobMatch
           SessionExamples.env SessionExamples.joinedSession
           SessionExamples.bobParty
           [Examples.participantRole [KubernetesSessionKind]] []).
  - vm_compute. discriminate.
  - reflexivity.
  - reflexivity.
  - reflexivity.
Defined.

(** *** Leaving *)

(** C6 (the code departs from the claim).  Claim: [leave] emits an audit
    event whose type identifies it as a session leave.  For every session
    that is not terminated and every live party, [leave] takes the party out
    of the live roster and of the resize, reader and writer registrations,
    broadcasts that the user left and then emits one event for the leaving
    user and the session id; the event is an [apievents.SessionLeave], but
    its metadata carries the type and the code of the join event. *)
Theorem leave_event_has_join_type (whereParser : WhereParser)
  (globMatch : string -> string -> bool) (env : Session.Env)
  (s : Session.session) (id : Session.UUID) (party : Session.party) :
  Session.state s <> SessionStateTerminated ->
  Session.parties s !! id = Some party ->
  goneSince id
    (Session.effects s
     ++ [Session.ResizeQueueRemove id; Session.DeleteReader id;
         Session.DeleteWriter id;
         Session.BroadcastMessage
           ("User " ++ Session.User (Session.Ctx party) ++ " left the session.");
         Session.EmitAuditEvent (Session.sessionLeaveEvent s party)])%list
    (snd (Session.leave whereParser globMatch env id s))
  /\ Session.Struct (Session.sessionLeaveEvent s party) = Session.SessionLeave
  /\ Session.SessionID (Session.sessionLeaveEvent s party) = Session.id s
  /\ Session.UserName (Session.sessionLeaveEvent s party)
     = Session.User (Session.Ctx party)
  /\ Session.MetadataType (Session.sessionLeaveEvent s party)
     = Session.SessionJoinEvent
  /\ Session.MetadataCode (Session.sessionLeaveEvent s party)
     = Some Session.SessionJoinCode
  /\ Session.MetadataType (Session.sessionLeaveEvent s party)
     <> Session.typeOfStruct (Session.Struct (Session.sessionLeaveEvent s party)).
Proof.
  intros Hstate Hparty.
  split; [apply leave_live_party; assumption|].
  repeat split. discriminate.
Qed.

Lemma leave_event_has_join_type_witness :
  Session.MetadataType
    (Session.sessionLeaveEvent SessionExamples.joinedSession SessionExamples.aliceParty)
  <> Session.typeOfStruct
       (Session.Struct
          (Session.sessionLeaveEvent SessionExamples.joinedSession
             SessionExamples.aliceParty)).
Proof.
  apply (leave_event_has_join_type specWhereParser specGlobMatch
           SessionExamples.env SessionExamples.joinedSession
           (Session.ID SessionExamples.aliceParty) SessionExamples.aliceParty).
  - vm_compute. discriminate.
  - vm_compute. reflexivity.
Defined.

(** *** The terminated state *)

(** C7.  Once the state of a session is [Terminated] it stays so: after any
    sequence of [join], [leave], [launch] (whole or in its two halves),
    [Close] and [waitOnAccess] calls, with any behaviour of the
    collaborators, the state is [Terminated].  On such a session [leave]
    returns at once and changes nothing; [Close] on a session whose latch
    has fired returns at once and changes nothing, and the latch has fired
    after any [Close], so that the body of [Close] runs at most once. *)
Theorem terminated_state_is_final (whereParser : WhereParser)
  (globMatch : string -> string -> bool) (s : Session.session) :
  Session.state s = SessionStateTerminated ->
  (forall ops : list (Session.Env * Session.operation),
      Session.state (Session.run whereParser globMatch ops s)
      = SessionStateTerminated)
  /\ (forall (env : Session.Env) (id : Session.UUID),
         Session.leave whereParser globMatch env id s = (Ok tt, s))
  /\ (forall env : Session.Env,
         Session.closed s = true -> Session.Close env s = (Ok tt, s))
  /\ (forall env env' : Session.Env,
         Session.Close env' (snd (Session.Close env s))
         = (Ok tt, snd (Session.Close env s))).
Proof.
  intros Hs. split; [|split; [|split]].
  - intros ops. apply run_terminated. exact Hs.
  - intros env id. apply leave_terminated_noop. exact Hs.
  - intros env. apply Close_closed_noop_any.
  - intros env env'. apply Close_twice.
Qed.

Lemma terminated_state_is_final_witness :
  (forall ops : list (Session.Env * Session.operation),
      Session.state (Session.run specWhereParser specGlobMatch ops
                       SessionExamples.closedSession)
      = SessionStateTerminated)
  /\ (forall (env : Session.Env) (id : Session.UUID),
         Session.leave specWhereParser specGlobMatch env id
           SessionExamples.closedSession
         = (Ok tt, SessionExamples.closedSession))
  /\ (forall env : Session.Env,
         Session.closed SessionExamples.closedSession = true ->
         Session.Close env SessionExamples.closedSession
         = (Ok tt, SessionExamples.closedSession))
  /\ (forall env env' : Session.Env,
         Session.Close env' (snd (Session.Close env SessionExamples.closedSession))
         = (Ok tt, snd (Session.Close env SessionExamples.closedSession))).
Proof.
  apply (terminated_state_is_final specWhereParser specGlobMatch
           SessionExamples.closedSession).
  vm_compute. reflexivity.
Defined.

(** *** The start check *)



(** * Further properties of the evaluator *)

Section EvaluatorMore.

Variable whereParser : WhereParser.
Variable globMatch : string -> string -> bool.

Lemma SliceContainsMode_In (s : list SessionParticipantMode)
  (e : SessionParticipantMode) :
  SliceContainsMode s e = true <-> In e s.
Proof.
  unfold SliceContainsMode. rewrite existsb_exists. split.
  - intros (a & Ha & Heq). apply String.eqb_eq in Heq. subst a. exact Ha.
  - intros He. exists e. split; [exact He | apply String.eqb_refl].
Qed.

Lemma addModes_In (modeStrings : list string) :
  forall (modes : list SessionParticipantMode) (m : SessionParticipantMode),
    In m (addModes modes modeStrings) <-> In m modes \/ In m modeStrings.
Proof.
  induction modeStrings as [|mode rest IH]; intros modes m; simpl.
  - tauto.
  - destruct (SliceContainsMode modes mode) eqn:Hc; simpl; rewrite IH.
    + apply SliceContainsMode_In in Hc. split; [tauto|].
      intros [H | [<- | H]]; auto.
    + rewrite in_app_iff. simpl. tauto.
Qed.

Lemma addModes_NoDup (modeStrings : list string) :
  forall modes : list SessionParticipantMode,
    NoDup modes -> NoDup (addModes modes modeStrings).
Proof.
  induction modeStrings as [|mode rest IH]; intros modes Hnd; simpl; [exact Hnd|].
  destruct (SliceContainsMode modes mode) eqn:Hc; simpl; apply IH; [exact Hnd|].
  apply NoDup_app. split; [exact Hnd|]. split; [|apply NoDup_singleton].
  intros x Hx Hin. apply list_elem_of_singleton in Hin. subst x.
  apply list_elem_of_In, SliceContainsMode_In in Hx. congruence.
Qed.

Lemma collectModes_In (e : SessionAccessEvaluator)
  (allowPolicies : list SessionJoinPolicy) :
  forall (modes : list SessionParticipantMode) (m : SessionParticipantMode),
    In m (collectModes globMatch e modes allowPolicies)
    <-> In m modes
        \/ exists allow, In allow allowPolicies
                         /\ matchesJoin globMatch e allow = true
                         /\ In m (Modes allow).
Proof.
  induction allowPolicies as [|allow rest IH]; intros modes m; simpl.
  - split; [auto | intros [H | (? & [] & _)]; exact H].
  - destruct (matchesJoin globMatch e allow) eqn:Hj; rewrite IH.
    + rewrite addModes_In. split.
      * intros [[H | H] | (a & Ha & Hm)]; eauto 8.
      * intros [H | (a & [<- | Ha] & Hm & Hin)]; eauto 8.
    + split.
      * intros [H | (a & Ha & Hm)]; eauto 8.
      * intros [H | (a & [<- | Ha] & Hm & Hin)]; [auto | congruence | eauto 8].
Qed.

Lemma collectModes_NoDup (e : SessionAccessEvaluator)
  (allowPolicies : list SessionJoinPolicy) :
  forall modes : list SessionParticipantMode,
    NoDup modes -> NoDup (collectModes globMatch e modes allowPolicies).
Proof.
  induction allowPolicies as [|allow rest IH]; intros modes Hnd; simpl; [exact Hnd|].
  destruct (matchesJoin globMatch e allow); apply IH; [|exact Hnd].
  apply addModes_NoDup, Hnd.
Qed.

Lemma getAllowPoliciesOf_In (rs : list Role) (allow : SessionJoinPolicy) :
  In allow (getAllowPoliciesOf rs)
  <-> exists role, In role rs /\ In allow (GetSessionJoinPolicies role).
Proof.
  induction rs as [|role rest IH]; simpl.
  - split; [contradiction | intros (? & [] & _)].
  - rewrite in_app_iff, IH. split.
    + intros [H | (r & Hr & Ha)]; eauto.
    + intros (r & [<- | Hr] & Ha); eauto.
Qed.

Lemma overParticipants_outcome (e : SessionAccessEvaluator)
  (r : SessionRequirePolicy) (ps : list SessionAccessContext) :
  forall (left : Z) (res : bool * PolicyOptions),
    overParticipants whereParser globMatch e r left ps = Some (inr res) ->
    onLeaveOutcome r = inr res.
Proof.
  induction ps as [|p ps IH]; intros left res; simpl; [discriminate|].
  destruct (countsToward whereParser globMatch e p r (getAllowPolicies p))
    as [err|c]; [unfold Err; congruence|].
  destruct (_ <=? 0); [congruence | apply IH].
Qed.

(** What [overRequires] answers when it does not fail: true exactly when the
    list is not empty and the count of some require policy is met. *)
Lemma overRequires_decides (e : SessionAccessEvaluator)
  (reqs : list SessionRequirePolicy) (ps : list SessionAccessContext)
  (b : bool) (o : PolicyOptions) :
  Forall countInRange reqs ->
  overRequires whereParser globMatch e reqs ps = inr (b, o) ->
  b = true
  <-> ps <> []
      /\ exists r, In r reqs
           /\ Count r
              - Z.of_nat (length (List.filter (countedFor whereParser globMatch e r) ps))
              <= 0.
Proof.
  intros Hrange Hres. rewrite List.Forall_forall in Hrange. split.
  - intros ->. apply overRequires_true in Hres as (r & Hin & Hr).
    apply overParticipants_Some in Hr as [Hne Hle]; [|apply Hrange, Hin].
    split; [exact Hne|]. exists r. auto.
  - intros (Hne & r & Hin & Hle). destruct b; [reflexivity|]. exfalso.
    pose proof (overRequires_false _ _ _ _ _ _ Hres r Hin) as Hnone.
    apply overParticipants_None in Hnone as [-> | Hpos];
      [contradiction | lia | apply Hrange, Hin].
Qed.

End EvaluatorMore.

(** [getRequirePolicies] is the flat concatenation of the require
    policies of the roles, in the order of the roles and with the order of
    each role kept; skipping the roles without policies changes nothing. *)
Lemma getRequirePolicies_concat (hostRoles : list Role) :
  getRequirePolicies hostRoles
  = List.concat (List.map GetSessionRequirePolicies hostRoles).
Proof.
  induction hostRoles as [|role rest IH]; simpl; [reflexivity|].
  rewrite IH. destruct (GetSessionRequirePolicies role); reflexivity.
Qed.

(** X1.  When access controls are supported, [CanJoin] returns without
    error a list of modes without repetition, and a mode is in it exactly
    when it is listed by a join policy of one of the user's roles that
    [matchesJoin] accepts. *)
Theorem CanJoin_modes (globMatch : string -> string -> bool)
  (e : SessionAccessEvaluator) (user : SessionAccessContext) :
  supportsSessionAccessControls e = Ok true ->
  exists modes,
    CanJoin globMatch e user = Ok modes
    /\ NoDup modes
    /\ forall m,
         In m modes
         <-> exists role allow,
               In role (Roles user)
               /\ In allow (GetSessionJoinPolicies role)
               /\ matchesJoin globMatch e allow = true
               /\ In m (Modes allow).
Proof.
  intros Hs. unfold CanJoin. rewrite Hs. simpl.
  eexists. split; [reflexivity|]. split.
  - apply collectModes_NoDup. apply NoDup_nil_2.
  - intros m. rewrite collectModes_In. unfold getAllowPolicies. split.
    + intros [[] | (allow & Ha & Hj & Hm)].
      apply getAllowPoliciesOf_In in Ha as (role & Hr & Ha). eauto 8.
    + intros (role & allow & Hr & Ha & Hj & Hm). right. exists allow.
      split; [|auto]. apply getAllowPoliciesOf_In. eauto.
Qed.

Lemma CanJoin_modes_witness :
  exists modes,
    CanJoin specGlobMatch Examples.moderatedEvaluator Examples.alice = Ok modes
    /\ NoDup modes
    /\ forall m,
         In m modes
         <-> exists role allow,
               In role (Roles Examples.alice)
               /\ In allow (GetSessionJoinPolicies role)
               /\ matchesJoin specGlobMatch Examples.moderatedEvaluator allow = true
               /\ In m (Modes allow).
Proof.
  apply (CanJoin_modes specGlobMatch Examples.moderatedEvaluator Examples.alice).
  reflexivity.
Defined.

(** X2.  For an SSH session whose first host role is of a legacy version,
    [CanJoin] grants every user the fixed fallback [[peer]], whatever the
    join policies say. *)
Theorem CanJoin_ssh_legacy_first (globMatch : string -> string -> bool)
  (role : Role) (rest : list Role) (user : SessionAccessContext) :
  isLegacyVersion (GetVersion role) = true ->
  CanJoin globMatch (NewSessionAccessEvaluator (role :: rest) SSHSessionKind) user
  = Ok [SessionPeerMode].
Proof.
  intros H. unfold CanJoin. rewrite supports_first_legacy by exact H. reflexivity.
Qed.

Lemma CanJoin_ssh_legacy_first_witness :
  CanJoin specGlobMatch
    (NewSessionAccessEvaluator (Examples.legacyRole :: Examples.mixedRoles)
       SSHSessionKind)
    Examples.alice
  = Ok [SessionPeerMode].
Proof.
  apply (CanJoin_ssh_legacy_first specGlobMatch Examples.legacyRole
           Examples.mixedRoles Examples.alice).
  reflexivity.
Defined.

(** X3.  For every session kind other than SSH, [CanJoin] returns the empty
    list for every user, whatever the roles and join policies are: nobody
    is granted a mode. *)
Theorem CanJoin_not_ssh_grants_nothing (globMatch : string -> string -> bool)
  (e : SessionAccessEvaluator) (user : SessionAccessContext) :
  kind e <> SSHSessionKind ->
  CanJoin globMatch e user = Ok [].
Proof.
  intros Hk. unfold CanJoin. rewrite supports_not_ssh by exact Hk. simpl.
  unfold preAccessControlsModes.
  destruct (String.eqb_spec (kind e) SSHSessionKind); [contradiction | reflexivity].
Qed.

Lemma CanJoin_not_ssh_grants_nothing_witness :
  CanJoin specGlobMatch Examples.kubeEvaluator
    (Examples.participant "bob" [KubernetesSessionKind])
  = Ok [].
Proof.
  apply (CanJoin_not_ssh_grants_nothing specGlobMatch Examples.kubeEvaluator
           (Examples.participant "bob" [KubernetesSessionKind])).
  discriminate.
Defined.

(** X4.  For an SSH session whose first host role has a version that is
    neither legacy nor [v5], both [FulfilledFor] and [CanJoin] fail with the
    bad-parameter error that names the version, whatever the participants
    and the policies are. *)
Theorem unknown_role_version_is_fatal (whereParser : WhereParser)
  (globMatch : string -> string -> bool) (role : Role) (rest : list Role)
  (participants : list SessionAccessContext) (user : SessionAccessContext) :
  isLegacyVersion (GetVersion role) = false ->
  GetVersion role <> V5 ->
  FulfilledFor whereParser globMatch
    (NewSessionAccessEvaluator (role :: rest) SSHSessionKind) participants
  = Err (BadParameter ("unsupported role version: " ++ GetVersion role))
  /\ CanJoin globMatch (NewSessionAccessEvaluator (role :: rest) SSHSessionKind) user
     = Err (BadParameter ("unsupported role version: " ++ GetVersion role)).
Proof.
  intros Hlegacy Hv5.
  assert (Hs : supportsSessionAccessControls
                 (NewSessionAccessEvaluator (role :: rest) SSHSessionKind)
               = Err (BadParameter ("unsupported role version: " ++ GetVersion role))).
  { unfold supportsSessionAccessControls. simpl.
    unfold isLegacyVersion in Hlegacy. rewrite Hlegacy.
    destruct (String.eqb_spec (GetVersion role) V5); [contradiction | reflexivity]. }
  unfold FulfilledFor, CanJoin. rewrite Hs. split; reflexivity.
Qed.

Lemma unknown_role_version_is_fatal_witness :
  FulfilledFor specWhereParser specGlobMatch
    (NewSessionAccessEvaluator [Examples.hostRole "v6" []] SSHSessionKind)
    [Examples.alice]
  = Err (BadParameter ("unsupported role version: "
                       ++ GetVersion (Examples.hostRole "v6" [])))
  /\ CanJoin specGlobMatch
       (NewSessionAccessEvaluator [Examples.hostRole "v6" []] SSHSessionKind)
       Examples.alice
     = Err (BadParameter ("unsupported role version: "
                          ++ GetVersion (Examples.hostRole "v6" []))).
Proof.
  apply (unknown_role_version_is_fatal specWhereParser specGlobMatch
           (Examples.hostRole "v6" []) [] [Examples.alice] Examples.alice).
  - reflexivity.
  - discriminate.
Defined.

Lemma overRequires_false_options (whereParser : WhereParser)
  (globMatch : string -> string -> bool) (e : SessionAccessEvaluator)
  (reqs : list SessionRequirePolicy) (ps : list SessionAccessContext)
  (o : PolicyOptions) :
  overRequires whereParser globMatch e reqs ps = inr (false, o) -> o = noOptions.
Proof.
  induction reqs as [|r reqs IH]; simpl; [unfold Ok; congruence|].
  destruct (overParticipants whereParser globMatch e r (Count r) ps)
    as [res|] eqn:Hr; [|exact IH].
  intros ->. apply overParticipants_Some_true in Hr. discriminate.
Qed.

Lemma FulfilledFor_false_options (whereParser : WhereParser)
  (globMatch : string -> string -> bool) (e : SessionAccessEvaluator)
  (ps : list SessionAccessContext) (o : PolicyOptions) :
  FulfilledFor whereParser globMatch e ps = inr (false, o) -> o = noOptions.
Proof.
  unfold FulfilledFor.
  destruct (supportsSessionAccessControls e) as [err|supported];
    [unfold Err; congruence|].
  destruct (_ || _); [unfold Ok; congruence|].
  apply overRequires_false_options.
Qed.

(** X5.  With access controls supported, at least one require policy and
    proper [int32] counts, a [FulfilledFor] that does not fail answers true
    exactly when the participant list is not empty and one require policy
    has its count met by the participants counted toward it; the options
    are those of the on-leave action of such a policy.  When it answers
    false the options are empty and no count is met. *)
Theorem FulfilledFor_decides (whereParser : WhereParser)
  (globMatch : string -> string -> bool) (e : SessionAccessEvaluator)
  (ps : list SessionAccessContext) (b : bool) (o : PolicyOptions) :
  supportsSessionAccessControls e = Ok true ->
  requires e <> [] ->
  Forall countInRange (requires e) ->
  FulfilledFor whereParser globMatch e ps = Ok (b, o) ->
  (b = true ->
   ps <> []
   /\ exists r, In r (requires e)
        /\ Count r
           - Z.of_nat (length (List.filter (countedFor whereParser globMatch e r) ps))
           <= 0
        /\ onLeaveOutcome r = Ok (true, o))
  /\ (b = false ->
      o = noOptions
      /\ (ps = []
          \/ forall r, In r (requires e) ->
               0 < Count r
                   - Z.of_nat (length (List.filter
                                         (countedFor whereParser globMatch e r) ps)))).
Proof.
  intros Hs Hne Hrange. unfold FulfilledFor. rewrite Hs. unfold Ok.
  destruct (requires e) as [|r0 reqs] eqn:Hreqs; [contradiction|].
  simpl orb. cbv iota. rewrite <- Hreqs in *. clear Hreqs r0 reqs Hne.
  intros Hres. rewrite List.Forall_forall in Hrange. split.
  - intros ->. apply overRequires_true in Hres as (r & Hin & Hr).
    pose proof (overParticipants_outcome _ _ _ _ _ _ _ Hr) as Hout.
    apply overParticipants_Some in Hr as [Hps Hle]; [|apply Hrange, Hin].
    split; [exact Hps|]. exists r. auto.
  - intros ->. split; [eapply overRequires_false_options, Hres|].
    destruct ps as [|p ps]; [left; reflexivity | right].
    intros r Hin.
    pose proof (overRequires_false _ _ _ _ _ _ Hres r Hin) as Hnone.
    apply overParticipants_None in Hnone as [Hnil | Hpos];
      [discriminate | exact Hpos | apply Hrange, Hin].
Qed.

Lemma FulfilledFor_decides_witness :
  (true = true ->
   [Examples.alice; Examples.bob] <> []
   /\ exists r, In r (requires Examples.moderatedEvaluator)
        /\ Count r
           - Z.of_nat (length (List.filter
                                 (countedFor specWhereParser specGlobMatch
                                    Examples.moderatedEvaluator r)
                                 [Examples.alice; Examples.bob]))
           <= 0
        /\ onLeaveOutcome r = Ok (true, {| TerminateOnLeave := true |}))
  /\ (true = false ->
      {| TerminateOnLeave := true |} = noOptions
      /\ ([Examples.alice; Examples.bob] = []
          \/ forall r, In r (requires Examples.moderatedEvaluator) ->
               0 < Count r
                   - Z.of_nat (length (List.filter
                                         (countedFor specWhereParser specGlobMatch
                                            Examples.moderatedEvaluator r)
                                         [Examples.alice; Examples.bob])))).
Proof.
  apply (FulfilledFor_decides specWhereParser specGlobMatch
           Examples.moderatedEvaluator [Examples.alice; Examples.bob] true
           {| TerminateOnLeave := true |}).
  - reflexivity.
  - discriminate.
  - repeat constructor; unfold min_int32, max_int32; simpl; lia.
  - reflexivity.
Defined.

Lemma counted_permutation (whereParser : WhereParser)
  (globMatch : string -> string -> bool) (e : SessionAccessEvaluator)
  (r : SessionRequirePolicy) (S S' : list SessionAccessContext) :
  Permutation S S' ->
  length (List.filter (countedFor whereParser globMatch e r) S)
  = length (List.filter (countedFor whereParser globMatch e r) S').
Proof.
  intros Hperm.
  pose proof (counted_superset whereParser globMatch e r S S' []) as H1.
  pose proof (counted_superset whereParser globMatch e r S' S []) as H2.
  rewrite app_nil_r in H1, H2.
  specialize (H1 (Permutation_sym Hperm)). specialize (H2 Hperm). lia.
Qed.

(** X6.  The answer of [FulfilledFor] does not depend on the order of the
    participants: with proper [int32] counts, if it fails on neither of two
    lists that are permutations of each other, it returns the same boolean
    on both (the options may differ: they are those of the first policy
    that is met). *)
Theorem FulfilledFor_order_insensitive (whereParser : WhereParser)
  (globMatch : string -> string -> bool) (e : SessionAccessEvaluator)
  (S S' : list SessionAccessContext) (b b' : bool) (o o' : PolicyOptions) :
  Forall countInRange (requires e) ->
  Permutation S S' ->
  FulfilledFor whereParser globMatch e S = Ok (b, o) ->
  FulfilledFor whereParser globMatch e S' = Ok (b', o') ->
  b = b'.
Proof.
  intros Hrange Hperm. unfold FulfilledFor.
  destruct (supportsSessionAccessControls e) as [err|supported];
    [unfold Err, Ok; congruence|].
  destruct (_ || _); [unfold Ok; congruence|].
  intros HS HS'.
  pose proof (overRequires_decides _ _ _ _ _ _ _ Hrange HS) as Hb.
  pose proof (overRequires_decides _ _ _ _ _ _ _ Hrange HS') as Hb'.
  assert (Hiff : b = true <-> b' = true).
  { rewrite Hb, Hb'. split.
    - intros (Hne & r & Hin & Hle). split.
      + intros ->. apply Permutation_nil_r in Hperm. contradiction.
      + exists r. split; [exact Hin|].
        rewrite <- (counted_permutation whereParser globMatch e r S S' Hperm).
        exact Hle.
    - intros (Hne & r & Hin & Hle). split.
      + intros ->. apply Permutation_nil in Hperm. contradiction.
      + exists r. split; [exact Hin|].
        rewrite (counted_permutation whereParser globMatch e r S S' Hperm).
        exact Hle. }
  destruct b, b'; try reflexivity.
  - symmetry. apply Hiff. reflexivity.
  - apply Hiff. reflexivity.
Qed.

Lemma FulfilledFor_order_insensitive_witness :
  (FulfilledFor specWhereParser specGlobMatch Examples.moderatedEvaluator
     [Examples.alice; Examples.bob]
   = Ok (true, {| TerminateOnLeave := true |})
   /\ FulfilledFor specWhereParser specGlobMatch Examples.moderatedEvaluator
        [Examples.bob; Examples.alice]
      = Ok (true, {| TerminateOnLeave := true |}))
  /\ true = true.
Proof.
  split; [split; reflexivity|].
  apply (FulfilledFor_order_insensitive specWhereParser specGlobMatch
           Examples.moderatedEvaluator
           [Examples.alice; Examples.bob] [Examples.bob; Examples.alice]
           true true {| TerminateOnLeave := true |} {| TerminateOnLeave := true |}).
  - repeat constructor; unfold min_int32, max_int32; simpl; lia.
  - apply perm_swap.
  - reflexivity.
  - reflexivity.
Defined.

(** X7.  [GetIdentifier] resolves exactly the paths that start with
    [participant.name] or [participant.roles] and have two or three
    fields (a third field is ignored): the first to the user name, the
    second to the names of the roles in order.  Every other non-empty path
    is not found. *)
Theorem GetIdentifier_resolves (ctx : SessionAccessContext)
  (fields : list string) (v : value) :
  GetIdentifier ctx fields = Ok v
  <-> exists rest,
        (length rest <= 1)%nat
        /\ ((fields = "participant" :: "name" :: rest
             /\ v = VString (Username ctx))
            \/ (fields = "participant" :: "roles" :: rest
                /\ v = VStrings (List.map GetName (Roles ctx)))).
Proof.
  unfold GetIdentifier. split.
  - destruct fields as [|f0 fields]; [intros Hf; inversion Hf|].
    destruct (String.eqb_spec f0 "participant") as [-> | _];
      [|intros Hf; inversion Hf].
    destruct fields as [|f1 [|f2 [|f3 more]]].
    + intros Hf; inversion Hf.
    + simpl. destruct (String.eqb_spec f1 "name") as [-> | _];
        [intros [= <-]; exists []; split; [simpl; lia | left; split; reflexivity]|].
      destruct (String.eqb_spec f1 "roles") as [-> | _];
        [intros [= <-]; exists []; split; [simpl; lia | right; split; reflexivity]|].
      intros Hf; inversion Hf.
    + simpl. destruct (String.eqb_spec f1 "name") as [-> | _];
        [intros [= <-]; exists [f2]; split; [simpl; lia | left; split; reflexivity]|].
      destruct (String.eqb_spec f1 "roles") as [-> | _];
        [intros [= <-]; exists [f2]; split; [simpl; lia | right; split; reflexivity]|].
      intros Hf; inversion Hf.
    + replace ((Z.of_nat (length ("participant" :: f1 :: f2 :: f3 :: more)) =? 2)
               || (Z.of_nat (length ("participant" :: f1 :: f2 :: f3 :: more)) =? 3))
        with false
        by (symmetry; apply orb_false_iff; split; apply Z.eqb_neq; simpl length; lia).
      intros Hf; inversion Hf.
  - intros (rest & Hlen & [[-> ->] | [-> ->]]);
      destruct rest as [|f2 [|f3 more]]; simpl in Hlen; try lia; reflexivity.
Qed.

(** Every other path: not found, or the panic of [fields[0]] on an empty
    path. *)
Lemma GetIdentifier_fails (ctx : SessionAccessContext) (fields : list string)
  (err : error) :
  GetIdentifier ctx fields = Err err ->
  (fields = [] /\ exists msg, err = RuntimePanic msg)
  \/ (fields <> []
      /\ err = NotFound (String.concat "." fields ++ " is not defined")).
Proof.
  unfold GetIdentifier. destruct fields as [|f0 rest]; [intros [= <-]; eauto|].
  intros H. right. split; [discriminate|].
  repeat match type of H with
         | (if ?c then _ else _) = _ => destruct c
         | match ?x with _ => _ end = _ => destruct x
         end; unfold Err, Ok in H; congruence.
Qed.

(** * Further properties of the session tracker service *)

Section TrackerServiceFacts.

Import Tracker TrackerService.

Lemma scanList_passes (now : Z) (bk : backend) (sessionID : string)
  (ids : list string) (pre rest : list string) :
  forall i : nat,
    Forall (fun id => passedByScan now bk sessionID id = true) pre ->
    scanList now bk sessionID ids i (pre ++ rest)
    = scanList now bk sessionID ids (i + length pre) rest.
Proof.
  induction pre as [|id pre IH]; intros i Hpre; simpl.
  - rewrite Nat.add_0_r. reflexivity.
  - apply Forall_cons in Hpre as [Hid Hpre]. unfold passedByScan in Hid.
    unfold loadSession. destruct (sessions bk !! id) as [session|]; [|discriminate].
    apply negb_true_iff in Hid. unfold Ok. cbv iota. rewrite Hid.
    rewrite IH by exact Hpre. f_equal. lia.
Qed.

Lemma loadSessions_Forall2 (bk : backend) (ids : list string) :
  forall ts : list SessionTracker,
    loadSessions bk ids = Ok ts
    <-> Forall2 (fun id t => sessions bk !! id = Some t) ids ts.
Proof.
  induction ids as [|id ids IH]; intros ts; simpl.
  - split; [intros [= <-]; constructor | intros H; inversion H; reflexivity].
  - unfold loadSession. destruct (sessions bk !! id) as [t|] eqn:Hid.
    + destruct (loadSessions bk ids) as [err|rest] eqn:Hrest.
      * split; [intros Hf; inversion Hf|].
        intros H. inversion H as [|? ? ? ? _ Hrest']; subst.
        apply IH in Hrest'. discriminate.
      * split.
        -- intros [= <-]. constructor; [exact Hid | apply IH; reflexivity].
        -- intros H. inversion H as [|? t' ? rest' Ht Hrest']; subst.
           apply IH in Hrest'. unfold Ok in *.
           assert (t = t') by congruence. assert (rest = rest') by congruence.
           subst. reflexivity.
    + split; [intros Hf; inversion Hf|].
      intros H. inversion H; subst. congruence.
Qed.

Lemma loadSessions_missing (bk : backend) (ids : list string) (id : string) :
  In id ids -> sessions bk !! id = None ->
  exists err, loadSessions bk ids = Err err.
Proof.
  intros Hin Hnone.
  destruct (loadSessions bk ids) as [err|ts] eqn:Hload; [eauto|].
  apply loadSessions_Forall2 in Hload. exfalso.
  apply list_elem_of_In, list_elem_of_lookup in Hin as [i Hi].
  destruct (Forall2_lookup_l _ _ _ _ _ Hload Hi) as (t & _ & Ht). congruence.
Qed.

End TrackerServiceFacts.



(** X9.  [CreateSessionTracker] under an id that already has a resource
    fails with the error of [bk.Create], keeps every resource as it is, and
    has nevertheless appended the id to the list: the list entry is written
    before the resource and is not taken back. *)
Theorem CreateSessionTracker_taken (AlreadyExists : string -> error)
  (now : Z) (bk : Tracker.backend)
  (req : TrackerService.CreateSessionTrackerRequest)
  (existing : Tracker.SessionTracker) :
  Tracker.sessions bk !! TrackerService.ID req = Some existing ->
  fst (TrackerService.CreateSessionTracker AlreadyExists now bk req)
  = Err (AlreadyExists (TrackerService.ID req))
  /\ Tracker.sessions
       (snd (TrackerService.CreateSessionTracker AlreadyExists now bk req))
     = Tracker.sessions bk
  /\ Tracker.sessionList
       (snd (TrackerService.CreateSessionTracker AlreadyExists now bk req))
     = (Tracker.sessionList bk ++ [TrackerService.ID req])%list.
Proof.
  intros Htaken. unfold TrackerService.CreateSessionTracker. simpl.
  rewrite Htaken. simpl. repeat split.
Qed.

Lemma CreateSessionTracker_taken_witness :
  Tracker.sessionList
    (snd (TrackerService.CreateSessionTracker BadParameter TrackerExamples.now
            TrackerExamples.store
            {| TrackerService.ID := "c";
               TrackerService.Expires := 3000 * TrackerExamples.second |}))
  = (Tracker.sessionList TrackerExamples.store ++ ["c"])%list.
Proof.
  apply (CreateSessionTracker_taken BadParameter TrackerExamples.now
           TrackerExamples.store
           {| TrackerService.ID := "c";
              TrackerService.Expires := 3000 * TrackerExamples.second |}
           TrackerExamples.liveSession).
  vm_compute. reflexivity.
Defined.

(** X10.  [GetActiveSessionTrackers] succeeds exactly when every id of the
    list has a resource, and then returns these resources in the order of
    the list; one id without a resource makes the whole call fail. *)
Theorem GetActiveSessionTrackers_all_or_nothing (bk : Tracker.backend)
  (ts : list Tracker.SessionTracker) :
  TrackerService.GetActiveSessionTrackers bk = Ok ts
  <-> Forall2 (fun id t => Tracker.sessions bk !! id = Some t)
        (Tracker.sessionList bk) ts.
Proof. apply loadSessions_Forall2. Qed.

Lemma drop_past_hit {A : Type} (pre post : list A) (hit : A) :
  drop (S (length pre)) (pre ++ hit :: post) = post.
Proof.
  rewrite (cons_middle hit pre post), app_assoc.
  apply drop_app_length'. rewrite length_app. simpl. lia.
Qed.

(** X11.  What [removeSessionFromList] removes: the first entry of the list
    that is the requested id, or collectable, or stale, provided the
    resources of that entry and of all entries before it can be loaded.
    Nothing else leaves the list, and no resource is touched. *)
Theorem removeSessionFromList_removes_first_hit (now : Z) (bk : Tracker.backend)
  (sessionID : string) (pre post : list string) (hit : string)
  (session : Tracker.SessionTracker) :
  Tracker.sessionList bk = (pre ++ hit :: post)%list ->
  Forall (fun id => TrackerService.passedByScan now bk sessionID id = true) pre ->
  Tracker.sessions bk !! hit = Some session ->
  String.eqb hit sessionID || Tracker.doGC now session || Tracker.isStale now session
  = true ->
  Tracker.removeSessionFromList now bk sessionID
  = Ok {| Tracker.sessionList := (pre ++ post)%list;
          Tracker.sessions := Tracker.sessions bk |}.
Proof.
  intros Hlist Hpre Hhit Hcond. unfold Tracker.removeSessionFromList.
  rewrite Hlist, scanList_passes by exact Hpre. simpl.
  unfold Tracker.loadSession. rewrite Hhit. unfold Ok. cbv iota. rewrite Hcond.
  simpl.
  rewrite drop_past_hit, take_app_length. reflexivity.
Qed.

Lemma removeSessionFromList_removes_first_hit_witness :
  Tracker.removeSessionFromList TrackerExamples.now
    {| Tracker.sessionList := ["c"; "a"; "b"];
       Tracker.sessions := Tracker.sessions TrackerExamples.store |} "a"
  = Ok {| Tracker.sessionList := (["c"] ++ ["b"])%list;
          Tracker.sessions := Tracker.sessions TrackerExamples.store |}.
Proof.
  apply (removeSessionFromList_removes_first_hit TrackerExamples.now
           {| Tracker.sessionList := ["c"; "a"; "b"];
              Tracker.sessions := Tracker.sessions TrackerExamples.store |}
           "a" ["c"] ["b"] "a" TrackerExamples.staleSession).
  - reflexivity.
  - repeat constructor.
  - vm_compute. reflexivity.
  - reflexivity.
Defined.

(** X12.  When every entry of the list can be loaded and none is the
    requested id, collectable or stale, [removeSessionFromList] fails with
    the not-found error for the session. *)
Theorem removeSessionFromList_not_found (now : Z) (bk : Tracker.backend)
  (sessionID : string) :
  Forall (fun id => TrackerService.passedByScan now bk sessionID id = true)
    (Tracker.sessionList bk) ->
  Tracker.removeSessionFromList now bk sessionID
  = Err (NotFound ("session " ++ sessionID ++ " not found in list")).
Proof.
  intros Hall. unfold Tracker.removeSessionFromList.
  rewrite <- (app_nil_r (Tracker.sessionList bk)) at 2.
  rewrite scanList_passes by exact Hall. reflexivity.
Qed.

Lemma removeSessionFromList_not_found_witness :
  Tracker.removeSessionFromList TrackerExamples.now
    {| Tracker.sessionList := ["c"];
       Tracker.sessions := Tracker.sessions TrackerExamples.store |} "z"
  = Err (NotFound ("session " ++ "z" ++ " not found in list")).
Proof.
  apply (removeSessionFromList_not_found TrackerExamples.now
           {| Tracker.sessionList := ["c"];
              Tracker.sessions := Tracker.sessions TrackerExamples.store |} "z").
  repeat constructor.
Defined.



(** X14.  [RemoveSessionTracker] for a session that stands in the list
    behind a collectable or stale entry succeeds, cuts that other entry
    out of the list and deletes the resource of the requested session,
    whose id stays in the list; from then on [GetActiveSessionTrackers]
    fails. *)
Theorem RemoveSessionTracker_leaves_dangling_entry (now : Z)
  (bk : Tracker.backend) (sessionID : string) (pre post : list string)
  (garbage : string) (collected live : Tracker.SessionTracker) :
  Tracker.sessionList bk = (pre ++ garbage :: post)%list ->
  Forall (fun id => TrackerService.passedByScan now bk sessionID id = true) pre ->
  Tracker.sessions bk !! garbage = Some collected ->
  Tracker.doGC now collected || Tracker.isStale now collected = true ->
  In sessionID post ->
  Tracker.sessions bk !! sessionID = Some live ->
  exists bk',
    Tracker.RemoveSessionTracker now bk sessionID = Ok bk'
    /\ Tracker.sessionList bk' = (pre ++ post)%list
    /\ Tracker.sessions bk' = delete sessionID (Tracker.sessions bk)
    /\ exists err, TrackerService.GetActiveSessionTrackers bk' = Err err.
Proof.
  intros Hlist Hpre Hgarbage Hcond Hin Hlive.
  assert (Hcut : String.eqb garbage sessionID || Tracker.doGC now collected
                 || Tracker.isStale now collected = true)
    by (rewrite <- orb_assoc, Hcond; apply orb_true_r).
  unfold Tracker.RemoveSessionTracker, Tracker.removeSessionFromList.
  rewrite Hlist, scanList_passes by exact Hpre. simpl.
  unfold Tracker.loadSession. rewrite Hgarbage. unfold Ok. cbv iota. rewrite Hcut.
  simpl. rewrite drop_past_hit, take_app_length. simpl.
  rewrite Hlive. eexists. split; [reflexivity|]. simpl.
  repeat split.
  apply (loadSessions_missing _ _ sessionID).
  - simpl. apply in_or_app. right. exact Hin.
  - simpl. apply lookup_delete_eq.
Qed.

Lemma RemoveSessionTracker_leaves_dangling_entry_witness :
  exists bk',
    Tracker.RemoveSessionTracker TrackerExamples.now TrackerExamples.store "c"
    = Ok bk'
    /\ Tracker.sessionList bk' = ([] ++ ["b"; "c"])%list
    /\ Tracker.sessions bk' = delete "c" (Tracker.sessions TrackerExamples.store)
    /\ exists err, TrackerService.GetActiveSessionTrackers bk' = Err err.
Proof.
  apply (RemoveSessionTracker_leaves_dangling_entry TrackerExamples.now
           TrackerExamples.store "c" [] ["b"; "c"] "a"
           TrackerExamples.staleSession TrackerExamples.liveSession).
  - reflexivity.
  - constructor.
  - vm_compute. reflexivity.
  - reflexivity.
  - simpl. auto.
  - vm_compute. reflexivity.
Defined.

(** * Further properties of the live session *)

Import Session.
Import SessionChecks.

Lemma bind_run {A B : Type} (m : SessionM A) (k : A -> SessionM B) (s : session) :
  (m ≫= k) s
  = match m s with
    | (inl err, s') => (inl err, s')
    | (inr a, s') => k a s'
    end.
Proof. reflexivity. Qed.

Lemma preserves_lift_bind (P : session -> Prop) {A B : Type} (r : result A)
  (k : A -> SessionM B) :
  (forall a, r = inr a -> preserves P (k a)) -> preserves P (lift r ≫= k).
Proof.
  intros Hk s Hs. rewrite bind_lift. destruct r as [err|a]; [exact Hs|].
  apply (Hk a); [reflexivity | exact Hs].
Qed.


(** Walks through a method, one construct at a time; [side] settles what
    a write to the session has to keep.  The result of a call that is
    lifted into the method is kept as an equation. *)
Ltac preserve_step side :=
  lazymatch goal with
  | |- preserves _ (ret _) => apply preserves_ret
  | |- preserves _ (fail _) => apply preserves_fail
  | |- preserves _ (lift _) => apply preserves_lift
  | |- preserves _ (check _) => apply preserves_check
  | |- preserves _ (modify _) => apply preserves_modify; side
  | |- preserves _ (perform _) => apply preserves_modify; side
  | |- preserves _ (broadcastMessage _) => apply preserves_modify; side
  | |- preserves _ (emitAuditEvent _) => apply preserves_modify; side
  | |- preserves _ (get ≫= _) => apply preserves_get_bind; intros ? ?
  | |- preserves _ (lift _ ≫= _) => apply preserves_lift_bind; intros ? ?
  | |- preserves _ (_ ≫= _) => apply preserves_bind; [|intros ?]
  | |- preserves _ (when _ _) => apply preserves_when
  | |- preserves _ (logged _) => apply preserves_logged
  | |- preserves _ (forEach _ _) => apply preserves_forEach; intros ?
  | |- preserves _ (if ?c then _ else _) => destruct c eqn:?
  | |- preserves _ (match ?x with _ => _ end) => destruct x eqn:?
  end.

Ltac preserve side := repeat preserve_step side.

Ltac execute :=
  repeat (first [ rewrite bind_ret | rewrite bind_modify | rewrite bind_perform
                | rewrite bind_get | rewrite when_false | rewrite check_None ];
          cbv beta).

(** A write that leaves the property as it is, by computation. *)
Ltac unchanged :=
  idtac;
  let s := fresh "s" in let Hs := fresh "Hs" in
  intros s Hs; exact Hs.

Section Ensuring.

Variable I Q : session -> Prop.

Lemma ensures_bind_later {A B : Type} (m : SessionM A) (k : A -> SessionM B) :
  preserves I m -> (forall a, ensures I Q (k a)) -> ensures I Q (m ≫= k).
Proof.
  intros Hm Hk s b Hs. rewrite bind_run. specialize (Hm s Hs).
  destruct (m s) as [[err|a] s']; simpl in *; [discriminate|].
  apply Hk, Hm.
Qed.

Lemma ensures_bind_now {A B : Type} (m : SessionM A) (k : A -> SessionM B) :
  ensures I Q m -> (forall a, preserves Q (k a)) -> ensures I Q (m ≫= k).
Proof.
  intros Hm Hk s b Hs. rewrite bind_run. specialize (Hm s).
  destruct (m s) as [[err|a] s']; simpl in *; [discriminate|].
  intros _. apply Hk, (Hm a); [exact Hs | reflexivity].
Qed.

Lemma ensures_get_bind {A : Type} (k : session -> SessionM A) :
  (forall s0, I s0 -> ensures I Q (k s0)) -> ensures I Q (get ≫= k).
Proof. intros Hk s a Hs. rewrite bind_get. apply Hk; exact Hs. Qed.

Lemma ensures_lift_bind {A B : Type} (r : result A) (k : A -> SessionM B) :
  (forall a, r = inr a -> ensures I Q (k a)) -> ensures I Q (lift r ≫= k).
Proof.
  intros Hk s b Hs. rewrite bind_lift. destruct r as [err|a]; [discriminate|].
  apply (Hk a); [reflexivity | exact Hs].
Qed.

Lemma ensures_modify (f : session -> session) :
  (forall s, I s -> Q (f s)) -> ensures I Q (modify f).
Proof. intros Hf s a Hs _. apply Hf, Hs. Qed.

Lemma ensures_fail {A : Type} (err : error) : ensures I Q (@fail A err).
Proof. intros s a _. discriminate. Qed.

End Ensuring.

Lemma preserves_anySession {A : Type} (m : SessionM A) : preserves anySession m.
Proof. intros s _. constructor. Qed.

(** ** The rosters *)

(** The methods that never write to the rosters keep every property that
    only depends on them, on the evaluator and on the context of the
    initiator. *)
Section RosterUntouched.

Variable whereParser : WhereParser.
Variable globMatch : string -> string -> bool.
Variable env : Env.
Variable P : session -> Prop.
Hypothesis P_rosters :
  forall s s', parties s' = parties s ->
               partiesHistorical s' = partiesHistorical s ->
               accessEvaluator s' = accessEvaluator s ->
               ctx s' = ctx s -> P s -> P s'.

Ltac rosters_kept :=
  idtac;
  let s := fresh "s" in let Hs := fresh "Hs" in
  intros s Hs; apply (P_rosters s);
  [reflexivity | reflexivity | reflexivity | reflexivity | exact Hs].

Lemma Close_keeps_rosters : preserves P (Close env).
Proof.
  unfold Close, trackerUpdateState, partyClose. preserve rosters_kept.
Qed.

Lemma launchBegin_keeps_rosters : preserves P (launchBegin env).
Proof. unfold launchBegin, trackerUpdateState. preserve rosters_kept. Qed.

Lemma launchDeferred_keeps_rosters (err : option error) :
  preserves P (launchDeferred err).
Proof. unfold launchDeferred. preserve rosters_kept. Qed.

Lemma launchEnd_keeps_rosters (err : option error) (s : session) :
  P s -> P (launchEnd env err s).
Proof.
  intros Hs. unfold launchEnd.
  apply Close_keeps_rosters, launchDeferred_keeps_rosters, Hs.
Qed.

Lemma launch_keeps_rosters (s : session) : P s -> P (snd (launch env s)).
Proof.
  intros Hs. unfold launch.
  pose proof (launchBegin_keeps_rosters s Hs) as Hb.
  destruct (launchBegin env s) as [[err|[]] s1]; simpl in *; [exact Hb|].
  apply launchEnd_keeps_rosters, Hb.
Qed.

Lemma waitOnAccessBegin_keeps_rosters : preserves P waitOnAccessBegin.
Proof. unfold waitOnAccessBegin. preserve rosters_kept. Qed.

Lemma waitOnAccessEnd_keeps_rosters (st : SessionState) :
  preserves P (waitOnAccessEnd st).
Proof. unfold waitOnAccessEnd. preserve rosters_kept. Qed.

(** [join] either fails in its access check, with the session as it was,
    or registers a party that passes the check in both rosters and does
    not write to the rosters again. *)
Lemma join_rosters (p : party) (s : session) :
  P s ->
  (passesJoinCheck globMatch env p s ->
   P (withPartiesHistorical (<[ID p := p]>) (withParties (<[ID p := p]>) s))) ->
  P (snd (join whereParser globMatch env p s)).
Proof.
  intros Hs Hregistered. unfold join. rewrite bind_get. cbv zeta.
  assert (Hrest : forall rest : SessionM unit,
             preserves P rest ->
             passesJoinCheck globMatch env p s ->
             P (snd ((modify (withParties (<[ID p := p]>));;
                      modify (withPartiesHistorical (<[ID p := p]>));; rest) s))).
  { intros rest Hp Hpasses. execute. apply Hp, Hregistered, Hpasses. }
  destruct (String.eqb_spec (User (Ctx p)) (User (ctx s))) as [Huser|Huser];
    cbn [negb].
  - rewrite when_false, bind_ret.
    apply Hrest; [|left; exact Huser].
    unfold trackerAddParticipant. preserve rosters_kept.
  - unfold when. rewrite !bind_assoc, bind_lift.
    destruct (getRolesByName env (Groups (Ctx p))) as [err|roles] eqn:Hroles;
      [exact Hs|].
    rewrite bind_assoc, bind_lift.
    destruct (CanJoin globMatch (accessEvaluator s) _) as [err|modes] eqn:Hmodes;
      [exact Hs|].
    destruct (SliceContainsMode modes (Mode p)) eqn:Hmode; cbn [negb].
    + rewrite bind_ret.
      apply Hrest; [|right; exists roles, modes; auto].
      unfold trackerAddParticipant. preserve rosters_kept.
    + rewrite bind_fail. exact Hs.
Qed.

(** [leave] writes to the live roster once, to delete the party. *)
Lemma leave_rosters (id : UUID) (s : session) :
  P s -> P (withParties (delete id) s) ->
  P (snd (leave whereParser globMatch env id s)).
Proof.
  intros Hs Hremoved. unfold leave. rewrite bind_get. cbv zeta.
  destruct (bool_decide _); [exact Hs|].
  destruct (parties s !! id) as [party|]; [|exact Hs].
  rewrite bind_modify.
  match goal with
  | |- P (snd (?m ?s2)) =>
      cut (preserves P m); [intros Hp; apply Hp; exact Hremoved|]
  end.
  unfold trackerRemoveParticipant, partyClose. preserve rosters_kept.
Qed.

End RosterUntouched.

(** A property of the rosters that survives the registration of a party
    that has passed the access check and the removal of a live one
    survives every call. *)
Section RosterInvariant.

Variable whereParser : WhereParser.
Variable globMatch : string -> string -> bool.
Variable P : session -> Prop.
Hypothesis P_rosters :
  forall s s', parties s' = parties s ->
               partiesHistorical s' = partiesHistorical s ->
               accessEvaluator s' = accessEvaluator s ->
               ctx s' = ctx s -> P s -> P s'.
Hypothesis P_register :
  forall env s p,
    P s -> passesJoinCheck globMatch env p s ->
    P (withPartiesHistorical (<[ID p := p]>) (withParties (<[ID p := p]>) s)).
Hypothesis P_remove : forall s id, P s -> P (withParties (delete id) s).

Lemma step_roster_invariant (env : Env) (o : operation) (s : session) :
  P s -> P (step whereParser globMatch env o s).
Proof.
  intros Hs. destruct o; cbn [step].
  - apply join_rosters; [exact P_rosters | exact Hs | apply P_register, Hs].
  - apply leave_rosters; auto.
  - apply launch_keeps_rosters; auto.
  - apply launchBegin_keeps_rosters; auto.
  - apply launchEnd_keeps_rosters; auto.
  - apply Close_keeps_rosters; auto.
  - apply waitOnAccessBegin_keeps_rosters; auto.
  - apply waitOnAccessEnd_keeps_rosters; auto.
Qed.

Lemma run_roster_invariant (ops : list (Env * operation)) :
  forall s, P s -> P (run whereParser globMatch ops s).
Proof.
  induction ops as [|[env o] ops IH]; intros s Hs; simpl; [exact Hs|].
  apply IH, step_roster_invariant, Hs.
Qed.

End RosterInvariant.

(** X15.  The historical roster never loses an entry: an id that is in
    [partiesHistorical] stays there through every sequence of calls of
    [join], [leave], [launch], [Close] and [waitOnAccess], whatever the
    collaborators do. *)
Theorem partiesHistorical_never_shrinks (whereParser : WhereParser)
  (globMatch : string -> string -> bool) (ops : list (Env * operation))
  (s : session) (id : UUID) :
  is_Some (partiesHistorical s !! id) ->
  is_Some (partiesHistorical (run whereParser globMatch ops s) !! id).
Proof.
  apply (run_roster_invariant whereParser globMatch
           (fun s' => is_Some (partiesHistorical s' !! id))).
  - intros s1 s2 _ Hh _ _. rewrite Hh. auto.
  - intros env s1 p Hs1 _. simpl.
    destruct (decide (ID p = id)) as [->|Hne].
    + rewrite lookup_insert_eq. eauto.
    + rewrite lookup_insert_ne by exact Hne. exact Hs1.
  - intros s1 id' Hs1. exact Hs1.
Qed.

Lemma partiesHistorical_never_shrinks_witness :
  is_Some (partiesHistorical
             (run specWhereParser specGlobMatch
                [(SessionExamples.env, OpLeave (ID SessionExamples.aliceParty));
                 (SessionExamples.env, OpClose)]
                SessionExamples.joinedSession)
           !! ID SessionExamples.aliceParty).
Proof.
  apply (partiesHistorical_never_shrinks specWhereParser specGlobMatch
           [(SessionExamples.env, OpLeave (ID SessionExamples.aliceParty));
            (SessionExamples.env, OpClose)]
           SessionExamples.joinedSession (ID SessionExamples.aliceParty)).
  exists SessionExamples.aliceParty. vm_compute. reflexivity.
Defined.

(** X16.  Every live party is in the historical roster, and this is kept
    by every sequence of calls: [join] writes both rosters before anything
    that can fail, and [leave] only deletes from the live one. *)
Theorem live_parties_are_historical (whereParser : WhereParser)
  (globMatch : string -> string -> bool) (ops : list (Env * operation))
  (s : session) :
  liveInHistorical s ->
  liveInHistorical (run whereParser globMatch ops s).
Proof.
  apply (run_roster_invariant whereParser globMatch liveInHistorical).
  - intros s1 s2 Hp Hh _ _ Hs1 id. rewrite Hp, Hh. apply Hs1.
  - intros env s1 p Hs1 _ id. simpl.
    destruct (decide (ID p = id)) as [->|Hne].
    + rewrite !lookup_insert_eq. auto.
    + rewrite !lookup_insert_ne by exact Hne. apply Hs1.
  - intros s1 id' Hs1 id. simpl.
    destruct (decide (id' = id)) as [->|Hne].
    + rewrite lookup_delete_eq. intros [x Hx]. discriminate.
    + rewrite lookup_delete_ne by exact Hne. apply Hs1.
Qed.

Lemma live_parties_are_historical_witness :
  liveInHistorical
    (run specWhereParser specGlobMatch
       [(SessionExamples.env, OpJoin SessionExamples.aliceParty);
        (SessionExamples.env, OpJoin PresenceExamples.secondParty);
        (SessionExamples.env, OpLeave (ID SessionExamples.aliceParty))]
       (SessionExamples.newSession true)).
Proof.
  apply (live_parties_are_historical specWhereParser specGlobMatch
           [(SessionExamples.env, OpJoin SessionExamples.aliceParty);
            (SessionExamples.env, OpJoin PresenceExamples.secondParty);
            (SessionExamples.env, OpLeave (ID SessionExamples.aliceParty))]
           (SessionExamples.newSession true)).
  intros id [x Hx]. simpl in Hx. rewrite lookup_empty in Hx. discriminate.
Defined.

(** ** What [join] and [leave] do to one party *)

(** X17.  A [join] that returns no error has registered the party: it is
    in the live roster and in the historical one under its id, and the
    terminal multiplexer writes to it. *)
Theorem join_registers_party (whereParser : WhereParser)
  (globMatch : string -> string -> bool) (env : Env) (p : party) (s : session) :
  fst (join whereParser globMatch env p s) = Ok tt ->
  parties (snd (join whereParser globMatch env p s)) !! ID p = Some p
  /\ partiesHistorical (snd (join whereParser globMatch env p s)) !! ID p = Some p
  /\ ID p ∈ writers (io (snd (join whereParser globMatch env p s))).
Proof.
  intros Hok.
  assert (Hparties : ensures anySession (fun s' => parties s' !! ID p = Some p)
                       (join whereParser globMatch env p)).
  { unfold join. cbv zeta.
    do 2 (apply ensures_bind_later; [apply preserves_anySession | intros ?]).
    apply ensures_bind_now;
      [apply ensures_modify; intros s' _; apply lookup_insert_eq|intros ?].
    unfold trackerAddParticipant. preserve unchanged. }
  assert (Hhistorical :
            ensures anySession (fun s' => partiesHistorical s' !! ID p = Some p)
              (join whereParser globMatch env p)).
  { unfold join. cbv zeta.
    do 3 (apply ensures_bind_later; [apply preserves_anySession | intros ?]).
    apply ensures_bind_now;
      [apply ensures_modify; intros s' _; apply lookup_insert_eq|intros ?].
    unfold trackerAddParticipant. preserve unchanged. }
  assert (Hwriters : ensures anySession (fun s' => ID p ∈ writers (io s'))
                       (join whereParser globMatch env p)).
  { unfold join. cbv zeta.
    do 11 (apply ensures_bind_later; [apply preserves_anySession | intros ?]).
    apply ensures_bind_now;
      [apply ensures_modify; intros s' _;
       apply elem_of_union_l, elem_of_singleton; reflexivity|intros ?].
    preserve unchanged. }
  repeat split.
  - apply (Hparties s tt); [constructor | exact Hok].
  - apply (Hhistorical s tt); [constructor | exact Hok].
  - apply (Hwriters s tt); [constructor | exact Hok].
Qed.

Lemma join_registers_party_witness :
  parties SessionExamples.joinedSession !! ID SessionExamples.aliceParty
  = Some SessionExamples.aliceParty
  /\ partiesHistorical SessionExamples.joinedSession !! ID SessionExamples.aliceParty
     = Some SessionExamples.aliceParty
  /\ ID SessionExamples.aliceParty ∈ writers (io SessionExamples.joinedSession).
Proof.
  apply (join_registers_party specWhereParser specGlobMatch SessionExamples.env
           SessionExamples.aliceParty (SessionExamples.newSession true)).
  vm_compute. reflexivity.
Defined.

(** X18.  [leave] touches the leaving party only: the historical roster is
    as it was, every other entry of the live roster is as it was, and an id
    that is not in the live roster makes [leave] return [nil] with the
    session untouched (no tracker update, no event). *)
Theorem leave_touches_only_the_leaver (whereParser : WhereParser)
  (globMatch : string -> string -> bool) (env : Env) (id : UUID) (s : session) :
  partiesHistorical (snd (leave whereParser globMatch env id s))
  = partiesHistorical s
  /\ (forall id', id' <> id ->
        parties (snd (leave whereParser globMatch env id s)) !! id'
        = parties s !! id')
  /\ (parties s !! id = None ->
      leave whereParser globMatch env id s = (Ok tt, s)).
Proof.
  repeat split.
  - apply (leave_rosters whereParser globMatch env
             (fun s' => partiesHistorical s' = partiesHistorical s)).
    + intros s1 s2 _ Hh _ _ Hs1. congruence.
    + reflexivity.
    + reflexivity.
  - intros id' Hne.
    apply (leave_rosters whereParser globMatch env
             (fun s' => parties s' !! id' = parties s !! id')).
    + intros s1 s2 Hp _ _ _ Hs1. congruence.
    + reflexivity.
    + simpl. apply lookup_delete_ne. congruence.
  - intros Hnone. unfold leave. rewrite bind_get. cbv zeta. rewrite Hnone.
    destruct (bool_decide _); reflexivity.
Qed.

Lemma leave_touches_only_the_leaver_witness :
  parties (snd (leave specWhereParser specGlobMatch SessionExamples.env
                  (ID PresenceExamples.secondParty)
                  PresenceExamples.twoPartySession))
    !! ID SessionExamples.aliceParty
  = parties PresenceExamples.twoPartySession !! ID SessionExamples.aliceParty
  /\ leave specWhereParser specGlobMatch SessionExamples.env
       (ID SessionExamples.bobParty) SessionExamples.joinedSession
     = (Ok tt, SessionExamples.joinedSession).
Proof.
  split.
  - apply (leave_touches_only_the_leaver specWhereParser specGlobMatch
             SessionExamples.env (ID PresenceExamples.secondParty)
             PresenceExamples.twoPartySession).
    simpl. discriminate.
  - apply (leave_touches_only_the_leaver specWhereParser specGlobMatch
             SessionExamples.env (ID SessionExamples.bobParty)
             SessionExamples.joinedSession).
    vm_compute. reflexivity.
Defined.

(** ** Closing *)

Lemma bind_logged {A B : Type} (m : SessionM A) (k : unit -> SessionM B)
  (s : session) :
  (logged m ≫= k) s = k tt (snd (m s)).
Proof. reflexivity. Qed.

Lemma partyClose_latches (env : Env) (p : party) (s : session) :
  ID p ∈ closedParties (snd (partyClose env p s)).
Proof.
  unfold partyClose. rewrite bind_get.
  destruct (decide (ID p ∈ closedParties s)) as [Hin|Hout]; [exact Hin|].
  execute. destruct (clientClose env (ID p)); simpl;
    apply elem_of_union_l, elem_of_singleton; reflexivity.
Qed.

Lemma partyClose_keeps_closed (env : Env) (p : party) (id : string) :
  preserves (fun s => id ∈ closedParties s) (partyClose env p).
Proof.
  unfold partyClose.
  preserve ltac:(idtac; let s := fresh "s" in let Hs := fresh "Hs" in
                 intros s Hs; first [exact Hs | apply elem_of_union_r; exact Hs]).
Qed.

(** X19.  [party.Close] runs its body once: after a first call, whether it
    returned an error or not, a second call returns [nil] and leaves the
    session as it is. *)
Theorem partyClose_once (env env' : Env) (p : party) (s : session) :
  partyClose env' p (snd (partyClose env p s)) = (Ok tt, snd (partyClose env p s)).
Proof.
  pose proof (partyClose_latches env p s) as Hin.
  unfold partyClose at 1. rewrite bind_get.
  destruct (decide (ID p ∈ closedParties (snd (partyClose env p s))));
    [reflexivity | contradiction].
Qed.

Section Succeeding.

Lemma succeeds_ret {A : Type} (a : A) : alwaysSucceeds (ret a).
Proof. intros s. exists a. reflexivity. Qed.

Lemma succeeds_modify (f : session -> session) : alwaysSucceeds (modify f).
Proof. intros s. exists tt. reflexivity. Qed.

Lemma succeeds_logged {A : Type} (m : SessionM A) : alwaysSucceeds (logged m).
Proof. intros s. exists tt. reflexivity. Qed.

Lemma succeeds_bind {A B : Type} (m : SessionM A) (k : A -> SessionM B) :
  alwaysSucceeds m -> (forall a, alwaysSucceeds (k a)) -> alwaysSucceeds (m ≫= k).
Proof.
  intros Hm Hk s. rewrite bind_run. destruct (Hm s) as [a Ha].
  destruct (m s) as [[err|a'] s']; simpl in Ha; [discriminate|]. apply Hk.
Qed.

Lemma succeeds_get_bind {A : Type} (k : session -> SessionM A) :
  (forall s0, alwaysSucceeds (k s0)) -> alwaysSucceeds (get ≫= k).
Proof. intros Hk s. rewrite bind_get. apply Hk. Qed.

Lemma succeeds_when (b : bool) (m : SessionM unit) :
  alwaysSucceeds m -> alwaysSucceeds (when b m).
Proof. intros Hm. destruct b; [exact Hm | apply succeeds_ret]. Qed.

Lemma succeeds_forEach {A : Type} (l : list A) (body : A -> SessionM unit) :
  (forall a, alwaysSucceeds (body a)) -> alwaysSucceeds (forEach l body).
Proof.
  intros Hbody. induction l as [|a l IH]; simpl.
  - apply succeeds_ret.
  - apply (succeeds_bind (body a) (fun _ => forEach l body)); auto.
Qed.

End Succeeding.

Ltac succeed_step :=
  lazymatch goal with
  | |- alwaysSucceeds (ret _) => apply succeeds_ret
  | |- alwaysSucceeds (modify _) => apply succeeds_modify
  | |- alwaysSucceeds (perform _) => apply succeeds_modify
  | |- alwaysSucceeds (broadcastMessage _) => apply succeeds_modify
  | |- alwaysSucceeds (emitAuditEvent _) => apply succeeds_modify
  | |- alwaysSucceeds (logged _) => apply succeeds_logged
  | |- alwaysSucceeds (get ≫= _) => apply succeeds_get_bind; intros ?
  | |- alwaysSucceeds (_ ≫= _) => apply succeeds_bind; [|intros ?]
  | |- alwaysSucceeds (when _ _) => apply succeeds_when
  | |- alwaysSucceeds (forEach _ _) => apply succeeds_forEach; intros ?
  | |- alwaysSucceeds (if ?c then _ else _) => destruct c eqn:?
  | |- alwaysSucceeds (match ?x with _ => _ end) => destruct x eqn:?
  end.

Lemma Close_succeeds (env : Env) : alwaysSucceeds (Close env).
Proof. unfold Close. repeat succeed_step. Qed.

Lemma forEach_logged_run {A B : Type} (m : A -> SessionM B) (a : A) (l : list A)
  (s : session) :
  forEach (a :: l) (fun x => logged (m x)) s
  = forEach l (fun x => logged (m x)) (snd (m a s)).
Proof. reflexivity. Qed.

Lemma forEach_partyClose_closes (env : Env) (l : list party) :
  forall s p, p ∈ l ->
    ID p ∈ closedParties (snd (forEach l (fun party => logged (partyClose env party)) s)).
Proof.
  induction l as [|a l IH]; intros s p Hin.
  - inversion Hin.
  - rewrite forEach_logged_run. apply elem_of_cons in Hin as [->|Hin].
    + apply (preserves_forEach (fun s' => ID a ∈ closedParties s')).
      * intros b. apply preserves_logged, partyClose_keeps_closed.
      * apply partyClose_latches.
    + apply IH, Hin.
Qed.

(** X20.  [Close] on a session that has not been closed returns [nil] and
    leaves the session terminated, with the terminal multiplexer closed,
    the latch set, the live roster as it was and every party of it closed,
    whether the tracker update or the closing of a party fails or not. *)
Theorem Close_closes_every_party (env : Env) (s : session) :
  closed s = false ->
  fst (Close env s) = Ok tt
  /\ state (snd (Close env s)) = SessionStateTerminated
  /\ ioClosed (io (snd (Close env s))) = true
  /\ closed (snd (Close env s)) = true
  /\ parties (snd (Close env s)) = parties s
  /\ forall id p, parties s !! id = Some p ->
                  ID p ∈ closedParties (snd (Close env s)).
Proof.
  intros Hclosed. split.
  { destruct (Close_succeeds env s) as [[] Hok]. exact Hok. }
  assert (Hfields :
            state (snd (Close env s)) = SessionStateTerminated
            /\ ioClosed (io (snd (Close env s))) = true
            /\ closed (snd (Close env s)) = true
            /\ parties (snd (Close env s)) = parties s).
  { unfold Close. rewrite bind_get, Hclosed. unfold broadcastMessage. execute.
    match goal with
    | |- state (snd (?m ?s1)) = _ /\ _ =>
        cut (preserves (fun s' => state s' = SessionStateTerminated
                                  /\ ioClosed (io s') = true
                                  /\ closed s' = true
                                  /\ parties s' = parties s) m);
          [intros Hp; apply (Hp s1); repeat split|]
    end.
    unfold trackerUpdateState, partyClose. preserve unchanged. }
  destruct Hfields as (Hstate & Hio & Hlatch & Hparties).
  repeat split; try assumption.
  intros id p Hp.
  unfold Close. rewrite bind_get, Hclosed. unfold broadcastMessage. execute.
  rewrite bind_logged, bind_get.
  match goal with
  | |- context [trackerUpdateState env ?st ?s1] =>
      assert (Hsame : parties (snd (trackerUpdateState env st s1)) = parties s);
        [|generalize dependent (snd (trackerUpdateState env st s1)); intros s2 Hsame]
  end.
  { match goal with
    | |- parties (snd (?m ?s1)) = _ =>
        cut (preserves (fun s' => parties s' = parties s) m);
          [intros Hk; apply (Hk s1); reflexivity|]
    end.
    unfold trackerUpdateState. preserve unchanged. }
  rewrite Hsame.
  assert (Hmember : p ∈ snd <$> map_to_list (parties s)).
  { apply list_elem_of_fmap. exists (id, p). split; [reflexivity|].
    apply elem_of_map_to_list. exact Hp. }
  pose proof (forEach_partyClose_closes env (snd <$> map_to_list (parties s))
                s2 p Hmember) as Hin.
  rewrite bind_run.
  destruct (forEach _ _ s2) as [[err|[]] s3]; simpl in *; [exact Hin|].
  destruct (recorder s2); simpl; exact Hin.
Qed.

Lemma Close_closes_every_party_witness :
  fst (Close SessionExamples.env SessionExamples.joinedSession) = Ok tt
  /\ state SessionExamples.closedSession = SessionStateTerminated
  /\ ioClosed (io SessionExamples.closedSession) = true
  /\ closed SessionExamples.closedSession = true
  /\ parties SessionExamples.closedSession = parties SessionExamples.joinedSession
  /\ forall id p, parties SessionExamples.joinedSession !! id = Some p ->
                  ID p ∈ closedParties SessionExamples.closedSession.
Proof.
  apply (Close_closes_every_party SessionExamples.env SessionExamples.joinedSession).
  vm_compute. reflexivity.
Defined.

(** ** Kubernetes sessions *)

Lemma CanJoin_kubernetes (globMatch : string -> string -> bool)
  (hostRoles : list Role) (user : SessionAccessContext) :
  CanJoin globMatch (NewSessionAccessEvaluator hostRoles KubernetesSessionKind) user
  = Ok [].
Proof. unfold CanJoin. rewrite supports_kubernetes. reflexivity. Qed.

(** X21.  In a session whose evaluator is the one [newSession] builds (kind
    Kubernetes), [join] refuses every party of another user than the
    initiator, whatever the roles and join policies are: it returns the
    error of the role lookup or the access-denied error of the mode check,
    and the session is as it was. *)
Theorem join_kubernetes_refuses_other_users (whereParser : WhereParser)
  (globMatch : string -> string -> bool) (env : Env) (hostRoles : list Role)
  (p : party) (s : session) :
  accessEvaluator s = NewSessionAccessEvaluator hostRoles KubernetesSessionKind ->
  User (Ctx p) <> User (ctx s) ->
  snd (join whereParser globMatch env p s) = s
  /\ (fst (join whereParser globMatch env p s)
      = Err (AccessDenied "insufficient permissions to join session")
      \/ exists err, getRolesByName env (Groups (Ctx p)) = Err err
                     /\ fst (join whereParser globMatch env p s) = Err err).
Proof.
  intros He Huser. unfold join. rewrite bind_get. cbv zeta.
  apply String.eqb_neq in Huser. rewrite Huser. cbn [negb]. unfold when.
  rewrite !bind_assoc, bind_lift.
  destruct (getRolesByName env (Groups (Ctx p))) as [err|roles].
  - split; [reflexivity|]. right. exists err. split; reflexivity.
  - rewrite bind_assoc, bind_lift, He, CanJoin_kubernetes. unfold Ok.
    cbv iota beta. cbn [SliceContainsMode negb existsb].
    split; [reflexivity | left; reflexivity].
Qed.

Lemma join_kubernetes_refuses_other_users_witness :
  snd (join specWhereParser specGlobMatch SessionExamples.env
         SessionExamples.bobParty SessionExamples.joinedSession)
  = SessionExamples.joinedSession
  /\ (fst (join specWhereParser specGlobMatch SessionExamples.env
             SessionExamples.bobParty SessionExamples.joinedSession)
      = Err (AccessDenied "insufficient permissions to join session")
      \/ exists err,
          getRolesByName SessionExamples.env (Groups (Ctx SessionExamples.bobParty))
          = Err err
          /\ fst (join specWhereParser specGlobMatch SessionExamples.env
                    SessionExamples.bobParty SessionExamples.joinedSession)
             = Err err).
Proof.
  apply (join_kubernetes_refuses_other_users specWhereParser specGlobMatch
           SessionExamples.env [SessionExamples.hostRole]
           SessionExamples.bobParty SessionExamples.joinedSession).
  - vm_compute. reflexivity.
  - vm_compute. discriminate.
Defined.

Ltac ensure_step side :=
  lazymatch goal with
  | |- ensures _ _ (get ≫= _) => apply ensures_get_bind; intros ? ?
  | |- ensures _ _ (lift _ ≫= _) => apply ensures_lift_bind; intros ? ?
  | |- ensures _ _ (_ ≫= _) =>
      apply ensures_bind_later; [solve [preserve side] | intros ?]
  end.

(** X22.  A Kubernetes session launches on the first join that gets
    through, whatever its require policies say: when the session is
    pending and has not been started, a [join] that returns no error has
    spawned [launch] as its last action and has left the state pending. *)
Theorem join_kubernetes_launches (whereParser : WhereParser)
  (globMatch : string -> string -> bool) (env : Env) (hostRoles : list Role)
  (p : party) (s : session) :
  accessEvaluator s = NewSessionAccessEvaluator hostRoles KubernetesSessionKind ->
  state s = SessionStatePending ->
  started s = false ->
  fst (join whereParser globMatch env p s) = Ok tt ->
  last (effects (snd (join whereParser globMatch env p s))) = Some (Go GoLaunch)
  /\ state (snd (join whereParser globMatch env p s)) = SessionStatePending.
Proof.
  intros He Hstate Hstarted Hok.
  pose (I := fun s' : session =>
               accessEvaluator s'
               = NewSessionAccessEvaluator hostRoles KubernetesSessionKind
               /\ state s' = SessionStatePending
               /\ started s' = false).
  cut (ensures I
         (fun s' => last (effects s') = Some (Go GoLaunch)
                    /\ state s' = SessionStatePending)
         (join whereParser globMatch env p)).
  { intros Hjoin. apply (Hjoin s tt); [repeat split; assumption | exact Hok]. }
  clear. unfold join, trackerAddParticipant. cbv zeta.
  repeat ensure_step unchanged.
  match goal with
  | Hs : I ?s1 |- _ => destruct Hs as (He & Hstate & Hstarted)
  end.
  rewrite Hstate, bool_decide_eq_true_2 by reflexivity. cbn [negb].
  apply ensures_lift_bind. intros [canStart options] Hstart.
  apply (canStart_kubernetes whereParser globMatch env _ hostRoles) in Hstart;
    [|exact He].
  injection Hstart as -> ->. rewrite Hstarted. cbn [andb negb].
  intros s2 u (_ & Hpending & _) _. rewrite when_false. split.
  - simpl. apply last_snoc.
  - exact Hpending.
Qed.

Lemma join_kubernetes_launches_witness :
  last (effects SessionExamples.joinedSession) = Some (Go GoLaunch)
  /\ state SessionExamples.joinedSession = SessionStatePending.
Proof.
  apply (join_kubernetes_launches specWhereParser specGlobMatch SessionExamples.env
           [SessionExamples.hostRole] SessionExamples.aliceParty
           (SessionExamples.newSession true)).
  - reflexivity.
  - reflexivity.
  - reflexivity.
  - vm_compute. reflexivity.
Defined.

(** X23.  A Kubernetes session only ever has parties of the user who
    started it: when the evaluator is the one [newSession] builds and both
    rosters hold parties of that user only, they still do after every
    sequence of calls, whatever the roles, the join policies and the
    collaborators are. *)
Theorem kubernetes_session_has_one_user (whereParser : WhereParser)
  (globMatch : string -> string -> bool) (ops : list (Env * operation))
  (hostRoles : list Role) (s : session) :
  accessEvaluator s = NewSessionAccessEvaluator hostRoles KubernetesSessionKind ->
  (forall id q,
      parties s !! id = Some q \/ partiesHistorical s !! id = Some q ->
      User (Ctx q) = User (ctx s)) ->
  forall id q,
    parties (run whereParser globMatch ops s) !! id = Some q
    \/ partiesHistorical (run whereParser globMatch ops s) !! id = Some q ->
    User (Ctx q) = User (ctx s).
Proof.
  intros He Hs.
  pose (P := fun s' : session =>
               accessEvaluator s'
               = NewSessionAccessEvaluator hostRoles KubernetesSessionKind
               /\ ctx s' = ctx s
               /\ forall id q,
                    parties s' !! id = Some q \/ partiesHistorical s' !! id = Some q ->
                    User (Ctx q) = User (ctx s)).
  cut (P (run whereParser globMatch ops s)); [intros (_ & _ & Hrun); exact Hrun|].
  apply (run_roster_invariant whereParser globMatch P).
  - intros s1 s2 Hp Hh He2 Hc (He1 & Hc1 & Hs1).
    repeat split; [congruence | congruence |].
    intros id q. rewrite Hp, Hh. apply Hs1.
  - intros env s1 p (He1 & Hc1 & Hs1) Hpasses.
    assert (Huser : User (Ctx p) = User (ctx s)).
    { destruct Hpasses as [Huser | (roles & modes & _ & Hmodes & Hmode)];
        [congruence|].
      rewrite He1, CanJoin_kubernetes in Hmodes. injection Hmodes as <-.
      discriminate Hmode. }
    repeat split; [exact He1 | exact Hc1 |].
    intros id q. simpl. destruct (decide (ID p = id)) as [->|Hne].
    + rewrite !lookup_insert_eq. intros [[= <-] | [= <-]]; exact Huser.
    + rewrite !lookup_insert_ne by exact Hne. apply Hs1.
  - intros s1 id' (He1 & Hc1 & Hs1).
    repeat split; [exact He1 | exact Hc1 |].
    intros id q. simpl. intros [Hq | Hq]; [|apply (Hs1 id q); right; exact Hq].
    apply lookup_delete_Some in Hq as [_ Hq]. apply (Hs1 id q). left. exact Hq.
  - repeat split; [exact He | exact Hs].
Qed.

Lemma kubernetes_session_has_one_user_witness :
  parties (run specWhereParser specGlobMatch
             [(SessionExamples.env, OpJoin SessionExamples.aliceParty);
              (SessionExamples.env, OpJoin SessionExamples.bobParty)]
             (SessionExamples.newSession true))
    !! ID SessionExamples.aliceParty
  = Some SessionExamples.aliceParty
  /\ User (Ctx SessionExamples.aliceParty)
     = User (ctx (SessionExamples.newSession true)).
Proof.
  split; [vm_compute; reflexivity|].
  apply (kubernetes_session_has_one_user specWhereParser specGlobMatch
           [(SessionExamples.env, OpJoin SessionExamples.aliceParty);
            (SessionExamples.env, OpJoin SessionExamples.bobParty)]
           [SessionExamples.hostRole] (SessionExamples.newSession true))
    with (id := ID SessionExamples.aliceParty).
  - reflexivity.
  - intros id q. simpl. rewrite !lookup_empty. intros [Hq | Hq]; discriminate Hq.
  - left. vm_compute. reflexivity.
Defined.

(** ** Launching *)

(** X24.  [launch] up to its call of the executor, when it gets there
    without an error: the session is marked as started, the pod name is
    the one of the request and the tracker has been told the session is
    running, while the state field of the session is what it was. *)
Theorem launchBegin_starts_without_running (env : Env) (s : session) :
  fst (launchBegin env s) = Ok tt ->
  started (snd (launchBegin env s)) = true
  /\ podName (snd (launchBegin env s)) = paramPodName env
  /\ TrackerRequest (UpdateState SessionStateRunning)
       ∈ effects (snd (launchBegin env s))
  /\ state (snd (launchBegin env s)) = state s.
Proof.
  intros Hok.
  assert (Hstarted : ensures anySession (fun s' => started s' = true)
                       (launchBegin env)).
  { unfold launchBegin.
    do 6 (apply ensures_bind_later; [apply preserves_anySession | intros ?]).
    apply ensures_bind_now; [apply ensures_modify; reflexivity | intros ?].
    preserve unchanged. }
  assert (Hpod : ensures anySession (fun s' => podName s' = paramPodName env)
                   (launchBegin env)).
  { unfold launchBegin.
    do 4 (apply ensures_bind_later; [apply preserves_anySession | intros ?]).
    apply ensures_bind_now; [apply ensures_modify; reflexivity | intros ?].
    unfold trackerUpdateState. preserve unchanged. }
  assert (Htracker :
            ensures anySession
              (fun s' => TrackerRequest (UpdateState SessionStateRunning) ∈ effects s')
              (launchBegin env)).
  { unfold launchBegin, trackerUpdateState.
    do 5 (apply ensures_bind_later; [apply preserves_anySession | intros ?]).
    apply ensures_bind_now.
    - apply ensures_bind_now; [|intros ?; apply preserves_check].
      apply ensures_modify. intros s' _. simpl.
      apply elem_of_app. right. apply list_elem_of_singleton. reflexivity.
    - intros ?.
      preserve ltac:(idtac; let s' := fresh "s" in let Hs := fresh "Hs" in
                     intros s' Hs;
                     first [exact Hs | simpl; apply elem_of_app; left; exact Hs]). }
  assert (Hstate : preserves (fun s' => state s' = state s) (launchBegin env)).
  { unfold launchBegin, trackerUpdateState. preserve unchanged. }
  repeat split.
  - apply (Hstarted s tt); [constructor | exact Hok].
  - apply (Hpod s tt); [constructor | exact Hok].
  - apply (Htracker s tt); [constructor | exact Hok].
  - apply Hstate. reflexivity.
Qed.

Lemma launchBegin_starts_without_running_witness :
  started (snd (launchBegin SessionExamples.env SessionExamples.joinedSession)) = true
  /\ podName (snd (launchBegin SessionExamples.env SessionExamples.joinedSession))
     = paramPodName SessionExamples.env
  /\ TrackerRequest (UpdateState SessionStateRunning)
       ∈ effects (snd (launchBegin SessionExamples.env SessionExamples.joinedSession))
  /\ state (snd (launchBegin SessionExamples.env SessionExamples.joinedSession))
     = state SessionExamples.joinedSession.
Proof.
  apply (launchBegin_starts_without_running SessionExamples.env
           SessionExamples.joinedSession).
  vm_compute. reflexivity.
Defined.

(** X25.  How [launch] ends.  When it returns, it returns what the executor
    has returned and the session is closed.  When it fails before it has an
    executor, it is stuck in its deferred [Close] with the session lock
    held: the latch of [Close] and the state of the session are what they
    were when [launch] was called. *)
Theorem launch_closes_only_after_executor (env : Env) (s : session) :
  (forall err s', launch env s = (LaunchReturned err, s') ->
                  err = executorStream env /\ closed s' = true
                  /\ fst (launchBegin env s) = Ok tt)
  /\ (forall err s', launch env s = (LaunchBlocked err, s') ->
                     fst (launchBegin env s) = Err err
                     /\ closed s' = closed s /\ state s' = state s).
Proof.
  assert (Hkept : preserves (fun s' => closed s' = closed s /\ state s' = state s)
                    (launchBegin env)).
  { unfold launchBegin, trackerUpdateState. preserve unchanged. }
  specialize (Hkept s (conj eq_refl eq_refl)).
  unfold launch. destruct (launchBegin env s) as [[err0|[]] s1]; simpl in *.
  - split; [discriminate|].
    intros err s' [= <- <-]. split; [reflexivity | exact Hkept].
  - split; [|discriminate].
    intros err s' [= <- <-]. split; [reflexivity|]. split; [|reflexivity].
    unfold launchEnd. apply Close_latches.
Qed.

Lemma launch_closes_only_after_executor_witness :
  (executorStream SessionExamples.env = executorStream SessionExamples.env
   /\ closed (snd (launch SessionExamples.env SessionExamples.joinedSession)) = true
   /\ fst (launchBegin SessionExamples.env SessionExamples.joinedSession) = Ok tt)
  /\ (fst (launchBegin SessionExamples.envTrackerDenied SessionExamples.joinedSession)
      = Err (AccessDenied "access denied to perform action update on session_tracker")
      /\ closed (snd (launch SessionExamples.envTrackerDenied
                        SessionExamples.joinedSession))
         = closed SessionExamples.joinedSession
      /\ state (snd (launch SessionExamples.envTrackerDenied
                       SessionExamples.joinedSession))
         = state SessionExamples.joinedSession).
Proof.
  split.
  - apply (launch_closes_only_after_executor SessionExamples.env
             SessionExamples.joinedSession).
    vm_compute. reflexivity.
  - apply (launch_closes_only_after_executor SessionExamples.envTrackerDenied
             SessionExamples.joinedSession).
    vm_compute. reflexivity.
Defined.

(** ** Leaving and the start conditions *)

Lemma canStart_false_options (whereParser : WhereParser)
  (globMatch : string -> string -> bool) (env : Env) (s : session)
  (o : PolicyOptions) :
  canStart whereParser globMatch env s = inr (false, o) -> o = noOptions.
Proof.
  unfold canStart.
  destruct (canStartParticipants env _ _) as [err|participants];
    [unfold Err; congruence|].
  apply FulfilledFor_false_options.
Qed.

(** X26.  The terminate-on-leave branch of [leave] is never taken: when a
    party other than the initiator leaves and another party stays, [leave]
    does not spawn [Close], whatever the require policies say about
    [on_leave]; [FulfilledFor] gives options only together with [true],
    and [leave] reads them only after [false]. *)
Theorem leave_never_terminates_on_policy (whereParser : WhereParser)
  (globMatch : string -> string -> bool) (env : Env) (id : UUID) (s : session) :
  id <> initiator s ->
  (exists id' q, id' <> id /\ parties s !! id' = Some q) ->
  exists added,
    effects (snd (leave whereParser globMatch env id s)) = (effects s ++ added)%list
    /\ Go GoClose ∉ added.
Proof.
  intros Hinitiator (id' & q & Hne & Hq).
  pose (P := fun s' : session =>
               parties s' = delete id (parties s)
               /\ initiator s' = initiator s
               /\ exists added, effects s' = (effects s ++ added)%list
                                /\ Go GoClose ∉ added).
  assert (Hunchanged : exists added,
             effects s = (effects s ++ added)%list /\ Go GoClose ∉ added).
  { exists []. rewrite app_nil_r. split; [reflexivity | apply not_elem_of_nil]. }
  unfold leave. rewrite bind_get. cbv zeta.
  destruct (bool_decide _); [exact Hunchanged|].
  destruct (parties s !! id) as [party|]; [|exact Hunchanged].
  rewrite bind_modify.
  match goal with
  | |- exists added, effects (snd (?m ?s1)) = _ /\ _ =>
      cut (preserves P m);
        [intros Hp; apply (Hp s1); repeat split; exact Hunchanged|]
  end.
  clear Hunchanged.
  unfold trackerRemoveParticipant, partyClose.
  preserve ltac:(idtac;
                 let s' := fresh "s" in
                 let added := fresh "added" in
                 let Hp := fresh "Hp" in
                 let Hi := fresh "Hi" in
                 let He := fresh "He" in
                 let Hn := fresh "Hn" in
                 intros s' (Hp & Hi & added & He & Hn);
                 split; [exact Hp|]; split; [exact Hi|];
                 first [ exists added; split; [exact He | exact Hn]
                       | eexists; simpl; rewrite He, <- app_assoc;
                         split; [reflexivity|];
                         rewrite elem_of_app, list_elem_of_singleton;
                         intros [Hin|Hin]; [exact (Hn Hin) | discriminate Hin] ]).
  - match goal with
    | Hs : P ?s0, Hc : (_ || _) = true |- _ =>
        destruct Hs as (Hp & Hi & _); rewrite Hp, Hi in Hc;
          apply orb_true_iff in Hc; destruct Hc as [Hzero|Hsame]
    end.
    + apply Z.eqb_eq in Hzero.
      assert (Hempty : delete id (parties s) = ∅)
        by (apply map_size_empty_iff; lia).
      assert (Hgone : delete id (parties s) !! id' = None)
        by (rewrite Hempty; apply lookup_empty).
      rewrite lookup_delete_ne in Hgone by congruence. congruence.
    + apply String.eqb_eq in Hsame. contradiction.
  - subst. match goal with
    | Hs : canStart _ _ _ _ = inr (?c, ?o), Hc : negb ?c = true,
      Ht : TerminateOnLeave ?o = true |- _ =>
        destruct c; [discriminate Hc|];
          apply canStart_false_options in Hs; subst o; discriminate Ht
    end.
Qed.

Lemma leave_never_terminates_on_policy_witness :
  exists added,
    effects (snd (leave specWhereParser specGlobMatch SessionExamples.env
                    (ID PresenceExamples.secondParty)
                    PresenceExamples.twoPartySession))
    = (effects PresenceExamples.twoPartySession ++ added)%list
    /\ Go GoClose ∉ added.
Proof.
  apply (leave_never_terminates_on_policy specWhereParser specGlobMatch
           SessionExamples.env (ID PresenceExamples.secondParty)
           PresenceExamples.twoPartySession).
  - vm_compute. discriminate.
  - exists (ID SessionExamples.aliceParty), SessionExamples.aliceParty.
    split; [vm_compute; discriminate | vm_compute; reflexivity].
Defined.

(** ** The presence check *)

Section PresenceFacts.

Variable whereParser : WhereParser.
Variable globMatch : string -> string -> bool.
Variable env : Env.

Lemma leave_keeps_initiator (id : UUID) (i : UUID) :
  preserves (fun s => initiator s = i) (leave whereParser globMatch env id).
Proof.
  unfold leave, trackerRemoveParticipant, partyClose. cbv zeta.
  preserve unchanged.
Qed.

Lemma leave_keeps_live (id : UUID) :
  preserves (fun s => state s <> SessionStateTerminated)
    (leave whereParser globMatch env id).
Proof.
  unfold leave, trackerRemoveParticipant, partyClose. cbv zeta.
  preserve ltac:(idtac; let s := fresh "s" in let Hs := fresh "Hs" in
                 intros s Hs; first [exact Hs | simpl; discriminate]).
Qed.


Lemma leave_keeps_gone (id id' : UUID) :
  preserves (fun s => parties s !! id' = None) (leave whereParser globMatch env id).
Proof.
  intros s Hs.
  apply (leave_rosters whereParser globMatch env (fun s' => parties s' !! id' = None)).
  - intros s1 s2 Hp _ _ _ Hs1. congruence.
  - exact Hs.
  - simpl. apply lookup_delete_None. right. exact Hs.
Qed.

(** On a session that is not terminated, [leave] takes the party out of
    the live roster, in the roster or not. *)
Lemma leave_removes (id : UUID) (s : session) :
  state s <> SessionStateTerminated ->
  parties (snd (leave whereParser globMatch env id s)) !! id = None.
Proof.
  intros Hstate. destruct (parties s !! id) as [party|] eqn:Hparty.
  - apply (leave_live_party whereParser globMatch env s id party Hstate Hparty).
  - unfold leave. rewrite bind_get. cbv zeta. rewrite Hparty.
    destruct (bool_decide _); exact Hparty.
Qed.

End PresenceFacts.

Lemma forEach_reaches {A : Type} (I Q : session -> Prop) (l : list A)
  (body : A -> SessionM unit) (a : A) :
  a ∈ l ->
  (forall b, alwaysSucceeds (body b)) ->
  (forall b, preserves I (body b)) ->
  (forall b, preserves Q (body b)) ->
  (forall s, I s -> Q (snd (body a s))) ->
  forall s, I s -> Q (snd (forEach l body s)).
Proof.
  intros Hin Hsucceeds HI HQ Ha.
  induction l as [|b l IH]; intros s Hs; [inversion Hin|].
  cbn [forEach]. unfold bind.
  pose proof (HI b s Hs) as HIb. pose proof (Ha s Hs) as Hab.
  destruct (Hsucceeds b s) as [u Hu].
  apply elem_of_cons in Hin as [Heq|Hin].
  - subst b. destruct (body a s) as [[err|[]] s1]; simpl in *; [discriminate|].
    apply (preserves_forEach Q); [exact HQ | exact Hab].
  - destruct (body b s) as [[err|[]] s1]; simpl in *; [discriminate|].
    apply (IH Hin), HIb.
Qed.

(** X27.  [checkPresence] returns an error only when the tracker cannot be
    read, and then it has done nothing; once it has the participants, it
    returns [nil] whatever happens to the parties it ejects. *)
Theorem checkPresence_fails_only_with_tracker (whereParser : WhereParser)
  (globMatch : string -> string -> bool) (env : Env) (now : Z) (s : session) :
  (forall participants,
      fst (checkPresence whereParser globMatch env now (Ok participants) s) = Ok tt)
  /\ (forall err,
        checkPresence whereParser globMatch env now (Err err) s = (Err err, s)).
Proof.
  split; [|reflexivity].
  intros participants. unfold checkPresence. rewrite bind_lift. unfold Ok.
  match goal with
  | |- fst (?m s) = _ =>
      cut (alwaysSucceeds m); [intros Hm; destruct (Hm s) as [[] Hok]; exact Hok|]
  end.
  repeat succeed_step.
Qed.



(** X29.  [checkPresence] ejects the inactive moderators: on a session that
    is not terminated, every participant the tracker lists as a moderator
    last active more than [PresenceMaxDifference] ago, the initiator apart,
    is out of the live roster when [checkPresence] returns, whether the
    calls of [leave] fail or not. *)
Theorem checkPresence_ejects_inactive_moderators (whereParser : WhereParser)
  (globMatch : string -> string -> bool) (env : Env) (now : Z)
  (participants : list Participant) (s : session) (participant : Participant) :
  state s <> SessionStateTerminated ->
  participant ∈ participants ->
  ParticipantID participant <> initiator s ->
  ParticipantMode participant = SessionModeratorMode ->
  inactive now participant = true ->
  parties (snd (checkPresence whereParser globMatch env now (Ok participants) s))
    !! ParticipantID participant
  = None.
Proof.
  intros Hstate Hin Hne Hmode Hinactive.
  unfold checkPresence. rewrite bind_lift. unfold Ok.
  pose (I := fun s' : session =>
               state s' <> SessionStateTerminated /\ initiator s' = initiator s).
  pose (Q := fun s' : session => parties s' !! ParticipantID participant = None).
  match goal with
  | |- parties (snd (forEach _ ?body s)) !! _ = None =>
      apply (forEach_reaches I Q participants body participant Hin)
  end.
  - intros b. repeat succeed_step.
  - intros b. apply preserves_get_bind. intros s0 _.
    destruct (String.eqb _ _); [apply preserves_ret|].
    destruct (_ && _); [|apply preserves_ret].
    apply preserves_logged. intros s1 (Hs1 & Hi1). split.
    + apply leave_keeps_live. exact Hs1.
    + apply leave_keeps_initiator. exact Hi1.
  - intros b. apply preserves_get_bind. intros s0 _.
    destruct (String.eqb _ _); [apply preserves_ret|].
    destruct (_ && _); [|apply preserves_ret].
    apply preserves_logged, leave_keeps_gone.
  - intros s0 (Hs0 & Hi0). rewrite bind_get.
    rewrite Hi0. apply String.eqb_neq in Hne. rewrite Hne.
    rewrite Hmode, String.eqb_refl, Hinactive. cbn [andb].
    apply leave_removes. exact Hs0.
  - split; [exact Hstate | reflexivity].
Qed.

Lemma checkPresence_ejects_inactive_moderators_witness :
  parties (snd (checkPresence specWhereParser specGlobMatch SessionExamples.env
                  PresenceExamples.now
                  (Ok [PresenceExamples.trackedInitiator;
                       PresenceExamples.trackedModerator])
                  PresenceExamples.twoPartySession))
    !! ID PresenceExamples.secondParty
  = None.
Proof.
  apply (checkPresence_ejects_inactive_moderators specWhereParser specGlobMatch
           SessionExamples.env PresenceExamples.now
           [PresenceExamples.trackedInitiator; PresenceExamples.trackedModerator]
           PresenceExamples.twoPartySession PresenceExamples.trackedModerator).
  - vm_compute. discriminate.
  - right. left.
  - vm_compute. discriminate.
  - reflexivity.
  - vm_compute. reflexivity.
Defined.

(** ** The request of [trackerCreate] *)

Lemma appendHostRoles_all (isRoleV5 : Role -> bool) (hostRoles : list Role) :
  forall hostRolesV5,
    appendHostRoles isRoleV5 hostRolesV5 hostRoles
    = if forallb isRoleV5 hostRoles
      then Ok (hostRolesV5 ++ (Some <$> hostRoles))%list
      else Err (BadParameter "Found unexpected role structure").
Proof.
  induction hostRoles as [|role rest IH]; intros hostRolesV5; simpl.
  - rewrite app_nil_r. reflexivity.
  - destruct (isRoleV5 role); simpl; [|reflexivity].
    rewrite IH, <- app_assoc. reflexivity.
Qed.

(** X30.  The host roles in the request of [trackerCreate]: when every host
    role is a [RoleV5], the request lists as many nil pointers as there are
    host roles and the roles after them, twice as many entries as there are
    roles; when one is not, [trackerCreate] returns a bad-parameter error
    and sends nothing. *)
Theorem trackerCreateRequest_host_roles (isRoleV5 : Role -> bool) (now : Z)
  (s : session) (p : party) (hostRoles : list Role) :
  RequestHostRoles <$> trackerCreateRequest isRoleV5 now s p hostRoles
  = if forallb isRoleV5 hostRoles
    then Ok (replicate (length hostRoles) None ++ (Some <$> hostRoles))%list
    else Err (BadParameter "Found unexpected role structure").
Proof.
  unfold trackerCreateRequest. rewrite appendHostRoles_all.
  destruct (forallb isRoleV5 hostRoles); reflexivity.
Qed.
